(** * The GCE cluster-id cache (pkg/cloudprovider/providers/gce/gce_clusterid.go)

    A shallow embedding of the [ClusterId] cache of the GCE cloud provider:
    the two cached identities, the [setIds] update applied by the informer
    handlers, the lazy [getOrInitialize] routine and the two public readers
    [GetId] and [GetFederationId].

    The Go methods talk to three collaborators: the informer's local
    [cache.Store], the API server behind [clientset.Interface], and
    [crypto/rand].  Every access to a collaborator, every read of a field of
    the receiver and every critical section under [idLock] is one effect of a
    small free monad, so that the same program text has a sequential meaning
    ([run]) and an interleaved one ([move_proc], [run_turns]), in which the
    callers of several processes and their informers take turns. *)

From Stdlib.Strings Require Import Ascii String Byte.
From stdpp Require Import base strings list gmap.

Local Open Scope string_scope.

(** ** Constants (the [const] block of the source) *)

Definition UIDConfigMapName : string := "ingress-uid".
(** [metav1.NamespaceSystem] *)
Definition UIDNamespace : string := "kube-system".
Definition UIDCluster : string := "uid".
Definition UIDProvider : string := "provider-uid".
Definition UIDLengthBytes : nat := 8.

(** ** Data *)

(** The part of [v1.ConfigMap] the file reads or writes.  A nil [Data] map
    reads like the empty map. *)
Record ConfigMap : Type := mkConfigMap {
  Namespace : string;
  Name : string;
  Data : gmap string string
}.

(** A value of type [interface{}] as the store or the informer hands it over:
    a [*v1.ConfigMap] (possibly a nil pointer), the nil interface, or a value
    of some other dynamic type, of which only a description is kept. *)
Inductive object : Type :=
| ObjNil
| ObjConfigMap (p : option ConfigMap)
| ObjOther (dyn : string).

(** The type assertion [obj.( *v1.ConfigMap)], with its [ok] flag. *)
Definition as_ConfigMap (obj : object) : option ConfigMap * bool :=
  match obj with
  | ObjConfigMap p => (p, true)
  | ObjNil | ObjOther _ => (None, false)
  end.

(** Reasons of an API status error; [apierrors.IsAlreadyExists] tests the
    first one. *)
Inductive StatusReason : Type :=
| StatusReasonAlreadyExists
| StatusReasonForbidden
| StatusReasonServerTimeout
| StatusReasonUnknown.

(** Go [error] values met in this file. *)
Inductive error : Type :=
| errors_New (msg : string)
    (* errors.New(msg) *)
| Errorf_ExpectedConfigMap (item : object) (typeIsOk : bool)
    (* fmt.Errorf("Expected v1.ConfigMap, item=%+v, typeIsOk=%v", item, ok) *)
| StatusError (reason : StatusReason) (msg : string)
    (* an error of the API machinery *)
| OtherError (msg : string).
    (* any other error of a collaborator *)

Definition IsAlreadyExists (e : error) : bool :=
  match e with
  | StatusError StatusReasonAlreadyExists _ => true
  | _ => false
  end.

Definition ErrNotReady : error :=
  errors_New "GCECloud.ClusterId is not ready. Call Initialize() before using.".
Definition ErrNoClusterId : error :=
  errors_New "Could not retrieve cluster id".

(** The result of [cache.Store.GetByKey]: [(item, exists, err)]. *)
Definition GetByKeyResult : Type := object * bool * option error.

(** A [cache.Store], as far as this file uses the interface: its answer to
    [GetByKey] for every key, at the time it is asked. *)
Definition Store : Type := string → GetByKeyResult.

(** [type ClusterId struct].  [idLock] is not a field here: its critical
    sections are the [Locked] effects below.  [client] is not a field
    either: what the client does is the [Environment] of the process. *)
Record ClusterId : Type := mkClusterId {
  cfgMapKey : string;
  store : option Store;        (* nil until watchClusterId has set it *)
  providerId : option string;  (* *string *)
  clusterId : option string    (* *string *)
}.

Definition set_clusterId (v : option string) (ci : ClusterId) : ClusterId :=
  {| cfgMapKey := cfgMapKey ci; store := store ci;
     providerId := providerId ci; clusterId := v |}.
Definition set_providerId (v : option string) (ci : ClusterId) : ClusterId :=
  {| cfgMapKey := cfgMapKey ci; store := store ci;
     providerId := v; clusterId := clusterId ci |}.
Definition set_store (st : option Store) (ci : ClusterId) : ClusterId :=
  {| cfgMapKey := cfgMapKey ci; store := st;
     providerId := providerId ci; clusterId := clusterId ci |}.

(** ** Effects and programs *)

(** What a method of [ClusterId] can do besides computing. *)
Inductive Eff : Type → Type :=
| Load {X : Type} (field : ClusterId → X) : Eff X
    (* a read of a field of the receiver, outside any lock *)
| Locked {X : Type} (body : ClusterId → X * ClusterId) : Eff X
    (* a critical section under idLock (Lock or RLock) *)
| StoreGetByKey (st : Store) (key : string) : Eff GetByKeyResult
    (* st.GetByKey(key) *)
| RandRead (b : list byte) : Eff (list byte * option error)
    (* rand.Read(b): the buffer afterwards, and err *)
| ClientCreate (ns : string) (cfg : ConfigMap) : Eff (option error).
    (* client.Core().ConfigMaps(ns).Create(cfg), the returned object dropped *)

(** Programs: a result, an effect followed by the rest of the program, or a
    run-time panic (a method call on a nil interface). *)
Inductive Prog (A : Type) : Type :=
| Ret (a : A)
| Vis {X : Type} (e : Eff X) (k : X → Prog A)
| Panic.
Arguments Ret {A} a.
Arguments Vis {A X} e k.
Arguments Panic {A}.

Fixpoint bind {A B : Type} (p : Prog A) (f : A → Prog B) : Prog B :=
  match p with
  | Ret a => f a
  | Vis e k => Vis e (λ x, bind (k x) f)
  | Panic => Panic
  end.

Definition trigger {X : Type} (e : Eff X) : Prog X := Vis e Ret.

(** stdpp's monad notations: [x ← p; q] is [bind p (λ x, q)]. *)
#[global] Instance Prog_bind : MBind Prog := λ A B f p, bind p f.
#[global] Instance Prog_ret : MRet Prog := λ A a, Ret a.

(** ** hex.EncodeToString *)

Definition hextable : string := "0123456789abcdef".

Definition hex_digit (n : N) : ascii :=
  match String.get (N.to_nat n) hextable with
  | Some c => c
  | None => "0"%char
  end.

(** [dst[j] = hextable[v>>4]; dst[j+1] = hextable[v&0x0f]] for every byte. *)
Fixpoint EncodeToString (src : list byte) : string :=
  match src with
  | [] => ""
  | v :: rest =>
      String (hex_digit (N.shiftr (Byte.to_N v) 4))
        (String (hex_digit (N.land (Byte.to_N v) 15)) (EncodeToString rest))
  end.

(** ** The methods *)

(** The body of [setIds] between [Lock] and [Unlock]. *)
Definition setIds_locked (m : ConfigMap) (ci : ClusterId) : ClusterId :=
  let ci :=
    match Data m !! UIDCluster with
    | Some clusterId => set_clusterId (Some clusterId) ci
    | None => ci
    end in
  match Data m !! UIDProvider with
  | Some provId => set_providerId (Some provId) ci
  | None => ci
  end.

(** [func (ci *ClusterId) setIds(m *v1.ConfigMap)]; every caller passes a
    non-nil [m]. *)
Definition setIds (m : ConfigMap) : Prog unit :=
  trigger (Locked (λ ci, (tt, setIds_locked m ci))).

(** [func makeUID() (string, error)] *)
Definition makeUID : Prog (string * option error) :=
  let b := replicate UIDLengthBytes x00 in
  '(b, err) ← trigger (RandRead b);
  match err with
  | Some e => Ret ("", Some e)
  | None => Ret (EncodeToString b, None)
  end.

(** [func (ci *ClusterId) getConfigMap() (bool, error)] *)
Definition getConfigMap : Prog (bool * option error) :=
  st ← trigger (Load store);
  match st with
  | None => Panic
  | Some st =>
      key ← trigger (Load cfgMapKey);
      '(item, exists_, err) ← trigger (StoreGetByKey st key);
      match err with
      | Some e => Ret (false, Some e)
      | None =>
          if negb exists_ then Ret (false, None)
          else
            match as_ConfigMap item with
            | (Some m, true) => setIds m ;; Ret (true, None)
            | (_, ok) => Ret (false, Some (Errorf_ExpectedConfigMap item ok))
            end
      end
  end.

(** The config map [getOrInitialize] creates for a fresh id. *)
Definition newConfigMap (newId : string) : ConfigMap :=
  {| Namespace := UIDNamespace;
     Name := UIDConfigMapName;
     Data := <[UIDCluster := newId]> (<[UIDProvider := newId]> ∅) |}.

(** [func (ci *ClusterId) getOrInitialize() error] *)
Definition getOrInitialize : Prog (option error) :=
  st ← trigger (Load store);
  match st with
  | None => Ret (Some ErrNotReady : option error)
  | Some _ =>
      cid ← trigger (Load clusterId);
      match cid with
      | Some _ => Ret (None : option error)
      | None =>
          '(exists_, err) ← getConfigMap;
          match err with
          | Some e => Ret (Some e)
          | None =>
              if (exists_ : bool) then Ret None
              else
                (* The configmap does not exist - let's try creating one. *)
                '(newId, err) ← makeUID;
                match err with
                | Some e => Ret (Some e)
                | None =>
                    let cfg := newConfigMap newId in
                    err ← trigger (ClientCreate UIDNamespace cfg);
                    match err with
                    | Some e => Ret (Some e)
                    | None => setIds cfg ;; Ret None
                    end
                end
          end
      end
  end.

(** The body of [GetId] under [RLock]. *)
Definition GetId_locked (ci : ClusterId) : string * option error :=
  match clusterId ci with
  | None => ("", Some ErrNoClusterId)
  | Some cid =>
      match providerId ci with
      | Some pid => if bool_decide (pid ≠ cid) then (pid, None) else (cid, None)
      | None => (cid, None)
      end
  end.

(** [func (ci *ClusterId) GetId() (string, error)] *)
Definition GetId : Prog (string * option error) :=
  err ← getOrInitialize;
  match err with
  | Some e => Ret ("", Some e)
  | None => trigger (Locked (λ ci, (GetId_locked ci, ci)))
  end.

(** The body of [GetFederationId] under [RLock]. *)
Definition GetFederationId_locked (ci : ClusterId)
  : string * bool * option error :=
  match clusterId ci with
  | None => ("", false, Some ErrNoClusterId)
  | Some cid =>
      match providerId ci with
      | None => ("", false, None)
      | Some pid =>
          if bool_decide (cid = pid) then ("", false, None)
          else (cid, true, None)
      end
  end.

(** [func (ci *ClusterId) GetFederationId() (string, bool, error)] *)
Definition GetFederationId : Prog (string * bool * option error) :=
  err ← getOrInitialize;
  match err with
  | Some e => Ret ("", false, Some e)
  | None => trigger (Locked (λ ci, (GetFederationId_locked ci, ci)))
  end.

(** The informer's handlers ([mapEventHandler] in [watchClusterId]).
    Logging is not modelled. *)
Definition AddFunc (obj : object) : Prog unit :=
  match as_ConfigMap obj with
  | (Some m, true) =>
      if bool_decide (Namespace m ≠ UIDNamespace)
         || bool_decide (Name m ≠ UIDConfigMapName)
      then Ret tt
      else setIds m
  | _ => Ret tt
  end.

#[global] Instance ConfigMap_eq_dec : EqDecision ConfigMap.
Proof. solve_decision. Defined.
#[global] Instance object_eq_dec : EqDecision object.
Proof. solve_decision. Defined.

(** [UpdateFunc].  [reflect.DeepEqual] is a parameter: it tells a nil map
    from an empty one, which [ConfigMap] does not, so that no fixed function
    on [object] is the real one. *)
Definition UpdateFunc (DeepEqual : object → object → bool)
    (old cur : object) : Prog unit :=
  match as_ConfigMap cur with
  | (Some m, true) =>
      if bool_decide (Namespace m ≠ UIDNamespace)
         || bool_decide (Name m ≠ UIDConfigMapName)
      then Ret tt
      else if DeepEqual old cur then Ret tt
      else setIds m
  | _ => Ret tt
  end.

(** What the informer reports to [mapEventHandler]. *)
Inductive WatchEvent : Type :=
| Added (obj : object)
| Updated (old cur : object).

Definition handle_event (DeepEqual : object → object → bool)
    (ev : WatchEvent) : Prog unit :=
  match ev with
  | Added obj => AddFunc obj
  | Updated old cur => UpdateFunc DeepEqual old cur
  end.

(** The handlers run one event after the other. *)
Fixpoint handle_events (DeepEqual : object → object → bool)
    (evs : list WatchEvent) : Prog unit :=
  match evs with
  | [] => Ret tt
  | ev :: evs => handle_event DeepEqual ev ;; handle_events DeepEqual evs
  end.

(** The [ClusterId] value [watchClusterId] builds, before and after it has
    obtained the informer's store. *)
Definition newClusterId : ClusterId :=
  {| cfgMapKey := UIDNamespace +:+ "/" +:+ UIDConfigMapName;
     store := None; providerId := None; clusterId := None |}.
Definition watchingClusterId (st : Store) : ClusterId :=
  set_store (Some st) newClusterId.

(** ** The single-object lister and watcher *)

Section ListWatch.
Context {Rest World Listed Watched : Type}.

(** [metav1.ListOptions]: the field selector, and the other options, which
    this file passes on as they are. *)
Record ListOptions : Type := mkListOptions {
  FieldSelector : string;
  otherOptions : Rest
}.

(** [cache.ListerWatcher]: both methods talk to the API server. *)
Record ListerWatcher : Type := mkListerWatcher {
  lw_List : ListOptions → World → Listed * option error * World;
  lw_Watch : ListOptions → World → Watched * option error * World
}.

(** [type singleObjListerWatcher struct] *)
Record singleObjListerWatcher : Type := mkSingleObjListerWatcher {
  lw : ListerWatcher;
  objectName : string
}.

Definition newSingleObjectListerWatcher (lw : ListerWatcher)
    (objectName : string) : singleObjListerWatcher :=
  {| lw := lw; objectName := objectName |}.

(** [options.FieldSelector = "metadata.name=" + sow.objectName]; [options]
    is the method's own copy. *)
Definition select_name (sow : singleObjListerWatcher) (options : ListOptions)
  : ListOptions :=
  {| FieldSelector := "metadata.name=" +:+ objectName sow;
     otherOptions := otherOptions options |}.

(** [func (sow *singleObjListerWatcher) List(options metav1.ListOptions)] *)
Definition sow_List (sow : singleObjListerWatcher) (options : ListOptions)
  : World → Listed * option error * World :=
  lw_List (lw sow) (select_name sow options).

(** [func (sow *singleObjListerWatcher) Watch(options metav1.ListOptions)] *)
Definition sow_Watch (sow : singleObjListerWatcher) (options : ListOptions)
  : World → Watched * option error * World :=
  lw_Watch (lw sow) (select_name sow options).

(** A [*singleObjListerWatcher] is a [cache.ListerWatcher] itself. *)
Definition sow_ListerWatcher (sow : singleObjListerWatcher) : ListerWatcher :=
  {| lw_List := sow_List sow; lw_Watch := sow_Watch sow |}.

End ListWatch.

Arguments ListOptions : clear implicits.
Arguments ListerWatcher : clear implicits.
Arguments singleObjListerWatcher : clear implicits.

(** ** The environment of a process and the meaning of programs *)

(** The two collaborators that live outside the process: the entropy source
    behind [rand.Read] (asked for [n] bytes, it offers some bytes and an
    error) and the API server behind [Create]. *)
Class Environment (World : Type) : Type := {
  entropy_read : nat → World → list byte * option error * World;
  client_Create : string → ConfigMap → World → option error * World
}.

(** The input and output performed so far, in the order it was performed:
    reads of an informer store, requests for entropy, calls of [Create]. *)
Inductive IOEvent : Type :=
| IOGetByKey (key : string)
| IORandRead (n : nat)
| IOCreate (ns : string) (cfg : ConfigMap).

Record Env (World : Type) : Type := mkEnv {
  world : World;
  trace : list IOEvent   (* oldest first *)
}.
Arguments mkEnv {World} world trace.
Arguments world {World} e.
Arguments trace {World} e.

(** [rand.Read(b)] writes into the buffer it is given: the length of [b]
    stays what it was. *)
Definition copy_into (b src : list byte) : list byte :=
  take (length b) (src ++ drop (length src) b).

(** A process in the middle of a call: its own cache and what is left of
    the call. *)
Record Proc (A : Type) : Type := mkProc {
  p_cache : ClusterId;
  p_prog : Prog A
}.
Arguments mkProc {A} p_cache p_prog.
Arguments p_cache {A} p.
Arguments p_prog {A} p.

(** The call has returned: with what. *)
Definition finished {A : Type} (p : Proc A) : option A :=
  match p_prog p with
  | Ret a => Some a
  | _ => None
  end.

Section Semantics.
Context {World : Type} `{!Environment World}.

Definition handle {X : Type} (e : Eff X) (ci : ClusterId) (env : Env World)
  : X * ClusterId * Env World :=
  match e in Eff X return X * ClusterId * Env World with
  | Load field => (field ci, ci, env)
  | Locked body => let '(x, ci') := body ci in (x, ci', env)
  | StoreGetByKey st key =>
      (st key, ci, mkEnv (world env) (trace env ++ [IOGetByKey key]))
  | RandRead b =>
      let '(src, err, w) := entropy_read (length b) (world env) in
      ((copy_into b src, err), ci,
       mkEnv w (trace env ++ [IORandRead (length b)]))
  | ClientCreate ns cfg =>
      let '(err, w) := client_Create ns cfg (world env) in
      (err, ci, mkEnv w (trace env ++ [IOCreate ns cfg]))
  end.

(** A call, run to its end by one goroutine with nothing else going on.
    [None] is a panic. *)
Fixpoint run {A : Type} (p : Prog A) (ci : ClusterId) (env : Env World)
  : option (A * ClusterId * Env World) :=
  match p with
  | Ret a => Some (a, ci, env)
  | Vis e k => let '(x, ci', env') := handle e ci env in run (k x) ci' env'
  | Panic => None
  end.

(** *** The store as the informer keeps it

    What the receiver holds in [store] is a reference to the informer's
    store.  When other goroutines run between the read of the field and the
    call of [GetByKey], the call is answered by what the store holds at the
    time of the call, not by what it held when the field was read.  In a
    call that runs alone ([run]) the two are the same. *)
Definition live_effect {X : Type} (e : Eff X) (ci : ClusterId) : Eff X :=
  match e in Eff X return Eff X with
  | StoreGetByKey st key => StoreGetByKey (default st (store ci)) key
  | Load field => Load field
  | Locked body => Locked body
  | RandRead b => RandRead b
  | ClientCreate ns cfg => ClientCreate ns cfg
  end.

(** The next effect of a program, performed on the cache [ci], and what is
    left of the program after it. *)
Definition after_effect {A : Type} (p : Prog A) (ci : ClusterId)
    (env : Env World) : Prog A * ClusterId * Env World :=
  match p with
  | Vis e k =>
      let '(x, ci', env') := handle (live_effect e ci) ci env in
      (k x, ci', env')
  | Ret _ | Panic => (p, ci, env)
  end.

End Semantics.

(** ** A cluster to run against *)

(** The key under which the API server and the informer file a config map:
    [namespace/name]. *)
Definition object_key (ns name : string) : string := ns +:+ "/" +:+ name.

(** The world outside the processes: the config maps the API server holds,
    and an entropy source, the [drawn]-th request to which is answered by
    [entropy drawn]. *)
Record Cluster : Type := mkCluster {
  configmaps : gmap string ConfigMap;
  entropy : nat → list byte * option error;
  drawn : nat
}.

(** Modelled from the spec: the clientset's [Create] is not part of this
    file.  "[CreateIfAbsent(key, initialValue) -> error] (fails with
    [AlreadyExists] if another writer won the race)": the record is stored
    when the key is free, and left as it is otherwise. *)
Definition cluster_Create (ns : string) (cfg : ConfigMap) (w : Cluster)
  : option error * Cluster :=
  let key := object_key ns (Name cfg) in
  match configmaps w !! key with
  | Some _ => (Some (StatusError StatusReasonAlreadyExists key), w)
  | None =>
      (None, {| configmaps := <[key := cfg]> (configmaps w);
                entropy := entropy w; drawn := drawn w |})
  end.

Definition cluster_entropy_read (n : nat) (w : Cluster)
  : list byte * option error * Cluster :=
  (entropy w (drawn w),
   {| configmaps := configmaps w; entropy := entropy w;
      drawn := S (drawn w) |}).

#[global] Instance Cluster_Environment : Environment Cluster := {
  entropy_read := cluster_entropy_read;
  client_Create := cluster_Create
}.

(** An informer store that holds nothing (yet). *)
Definition empty_store : Store := λ _, (ObjNil, false, None).

(** Modelled from the spec: the informer is not part of this file.  "for
    each [Added]/[Modified] event ... calls [SetFromRecord]": the informer
    files the object in its store under its key and then calls [AddFunc]. *)
Definition store_add (m : ConfigMap) (st : Store) : Store :=
  λ key,
    if bool_decide (key = object_key (Namespace m) (Name m))
    then (ObjConfigMap (Some m), true, None)
    else st key.

Definition informer_Added {World : Type} `{!Environment World}
    (m : ConfigMap) (ci : ClusterId) (env : Env World)
  : option (unit * ClusterId * Env World) :=
  run (AddFunc (ObjConfigMap (Some m)))
      (set_store (store_add m <$> store ci) ci) env.

(** The watch brings a process up to date with the API server. *)
Definition watch_delivery (ci : ClusterId) (env : Env Cluster) : ClusterId :=
  match configmaps (world env) !! object_key UIDNamespace UIDConfigMapName with
  | Some m =>
      match informer_Added m ci env with
      | Some (_, ci', _) => ci'
      | None => ci
      end
  | None => ci
  end.

(** A source of entropy that never fails: request [k] is answered with the
    eight bytes [16k], [16k+1], ..., [16k+7], modulo 256. *)
Definition counting_entropy (k : nat) : list byte * option error :=
  (map (λ i, default x00 (Byte.of_N (N.of_nat ((k * 16 + i) mod 256))))
       (seq 0 8), None).

(** A cluster in which nothing has happened yet. *)
Definition fresh_world : Cluster :=
  {| configmaps := ∅; entropy := counting_entropy; drawn := 0 |}.
Definition fresh_cluster : Env Cluster := mkEnv fresh_world [].

(** ** Vocabulary of the statements *)

(** The watch applies one record after the other. *)
Fixpoint setIds_each (ms : list ConfigMap) : Prog unit :=
  match ms with
  | [] => Ret tt
  | m :: ms => setIds m ;; setIds_each ms
  end.

(** The token [makeUID] makes of what the entropy source offers. *)
Definition token_of (src : list byte) : string :=
  EncodeToString (copy_into (replicate UIDLengthBytes x00) src).

(** Why [getOrInitialize] returned the error [e]: the store was not set,
    the store failed to answer, it answered with something that is not a
    config map, no token could be made, or the record could not be
    created. *)
Definition error_cause {World : Type} `{!Environment World}
    (ci : ClusterId) (env : Env World) (e : error) : Prop :=
  (store ci = None ∧ e = ErrNotReady)
  ∨ ∃ st item (exists_ : bool) err,
      store ci = Some st ∧ clusterId ci = None
      ∧ st (cfgMapKey ci) = (item, exists_, err)
      ∧ (err = Some e
         ∨ (err = None ∧ exists_ = true
            ∧ (as_ConfigMap item).1 = None
            ∧ e = Errorf_ExpectedConfigMap item (as_ConfigMap item).2)
         ∨ (err = None ∧ exists_ = false
            ∧ ∃ src w1,
                (entropy_read UIDLengthBytes (world env) = (src, Some e, w1)
                 ∨ (entropy_read UIDLengthBytes (world env) = (src, None, w1)
                    ∧ ∃ w2, client_Create UIDNamespace
                              (newConfigMap (token_of src)) w1
                            = (Some e, w2))))).

(** Neither cached identity is the empty string. *)
Definition no_empty_id (ci : ClusterId) : Prop :=
  clusterId ci ≠ Some "" ∧ providerId ci ≠ Some "".

(** Neither identity field of the record is the empty string. *)
Definition record_no_empty_id (m : ConfigMap) : Prop :=
  Data m !! UIDCluster ≠ Some "" ∧ Data m !! UIDProvider ≠ Some "".

(** What the informer's store holds under the cache's key, if it is a
    config map, has no empty identity. *)
Definition store_no_empty_id (ci : ClusterId) : Prop :=
  ∀ st m, store ci = Some st →
    (st (cfgMapKey ci)).1.1 = ObjConfigMap (Some m) → record_no_empty_id m.

(** A process that has started its watch and has seen nothing yet. *)
Definition fresh_process : ClusterId := watchingClusterId empty_store.

(** The cache of the first process to initialise itself in a fresh
    cluster. *)
Definition first_initialized : ClusterId :=
  match run getOrInitialize fresh_process fresh_cluster with
  | Some (_, ci, _) => ci
  | None => fresh_process
  end.

(** A cluster in which another process has already created the record, a
    fact the watch has yet to deliver here. *)
Definition cluster_after_first_create : Env Cluster :=
  match run getOrInitialize fresh_process fresh_cluster with
  | Some (_, _, env) => env
  | None => fresh_cluster
  end.

Definition AlreadyExists_ingress_uid : error :=
  StatusError StatusReasonAlreadyExists "kube-system/ingress-uid".

(** A store whose record carries an empty [uid]. *)
Definition empty_uid_store : Store :=
  store_add {| Namespace := UIDNamespace; Name := UIDConfigMapName;
               Data := <[UIDCluster := ""]> ∅ |} empty_store.

(** A record with neither identity. *)
Definition record_without_ids : ConfigMap :=
  {| Namespace := UIDNamespace; Name := UIDConfigMapName; Data := ∅ |}.

(** A lowercase hexadecimal digit. *)
Definition lower_hex (c : ascii) : Prop :=
  c ∈ String.list_ascii_of_string hextable.

(** The value of a hexadecimal digit, and the byte two digits spell. *)
Definition fromHexChar (c : ascii) : option nat :=
  fst <$> list_find (λ d, d = c) (String.list_ascii_of_string hextable).
Definition fromHexPair (hi lo : ascii) : option byte :=
  h ← fromHexChar hi; l ← fromHexChar lo; Byte.of_N (N.of_nat (16 * h + l)).

(** What a call of [getOrInitialize] has added to the record of input and
    output, and why.  Nothing, when the store is not set or [clusterId] is
    cached.  Else one read of the store; and only if the store answered
    "not there" without an error, one request for eight bytes; and only if
    that request succeeded, one [Create] in [kube-system] of the record
    made of the bytes drawn.  The world is as the last of these calls left
    it. *)
Definition io_explained {World : Type} `{!Environment World}
    (ci : ClusterId) (env env' : Env World) (evs : list IOEvent) : Prop :=
  (evs = [] ∧ world env' = world env
   ∧ (store ci = None ∨ is_Some (clusterId ci)))
  ∨ ∃ st item (exists_ : bool) gerr,
      store ci = Some st ∧ clusterId ci = None
      ∧ st (cfgMapKey ci) = (item, exists_, gerr)
      ∧ ((evs = [IOGetByKey (cfgMapKey ci)] ∧ world env' = world env
          ∧ (is_Some gerr ∨ exists_ = true))
         ∨ (gerr = None ∧ exists_ = false
            ∧ ∃ src rerr w1,
                entropy_read UIDLengthBytes (world env) = (src, rerr, w1)
                ∧ ((is_Some rerr
                    ∧ evs = [IOGetByKey (cfgMapKey ci);
                             IORandRead UIDLengthBytes]
                    ∧ world env' = w1)
                   ∨ (rerr = None
                      ∧ ∃ cerr w2,
                          client_Create UIDNamespace
                            (newConfigMap (token_of src)) w1 = (cerr, w2)
                          ∧ evs = [IOGetByKey (cfgMapKey ci);
                                   IORandRead UIDLengthBytes;
                                   IOCreate UIDNamespace
                                     (newConfigMap (token_of src))]
                          ∧ world env' = w2)))).

(** The object is a config map the handlers care about. *)
Definition is_ingress_uid (obj : object) (m : ConfigMap) : Prop :=
  obj = ObjConfigMap (Some m)
  ∧ Namespace m = UIDNamespace ∧ Name m = UIDConfigMapName.

(** The record that holds what [m1] holds and, on top, what [m2] holds. *)
Definition merge_records (m1 m2 : ConfigMap) : ConfigMap :=
  {| Namespace := Namespace m2; Name := Name m2;
     Data := Data m2 ∪ Data m1 |}.

(** ** The race for the first creation *)

Definition entropy_never_fails (w : Cluster) : Prop :=
  ∀ k, (entropy w k).2 = None.

Definition ingress_uid_key : string :=
  object_key UIDNamespace UIDConfigMapName.

(** *** Callers, informers and one API server

    Every process has a cache of its own, whose [store] is the live store of
    its own informer; the API server and the entropy source are shared.
    Three things can happen, in any order: a caller performs the next effect
    of its call, an informer files the record of the API server in its
    store, an informer reports the object in its store to [AddFunc]. *)

(** One call of [Create], as the API server saw it. *)
Record CreateCall : Type := mkCall {
  caller : nat;
  proposed : ConfigMap;
  answer : option error
}.

Record Race : Type := mkRace {
  procs : list (Proc (option error));
  shared : Env Cluster;
  creates : list CreateCall   (* oldest first *)
}.

Inductive Turn : Type :=
| Move (i : nat)     (* caller [i] performs its next effect *)
| Sync (i : nat)     (* informer [i] files the server's record in its store *)
| Notify (i : nat).  (* informer [i] calls [AddFunc] with what it has filed *)

(** What an effect adds to the calls of [Create]. *)
Definition created {X : Type} (i : nat) (e : Eff X) : X → list CreateCall :=
  match e in Eff X return X → list CreateCall with
  | ClientCreate ns cfg => λ err, [mkCall i cfg err]
  | _ => λ _, []
  end.

(** The next effect of a caller, performed atomically: a read of a field,
    a critical section under [idLock], or a call of a collaborator. *)
Definition move_proc (i : nat) (p : Proc (option error)) (env : Env Cluster)
  : Proc (option error) * Env Cluster * list CreateCall :=
  match p_prog p with
  | Vis e k =>
      let '(x, ci', env') :=
        handle (live_effect e (p_cache p)) (p_cache p) env in
      (mkProc ci' (k x), env', created i e x)
  | Ret _ | Panic => (p, env, [])
  end.

Definition move (i : nat) (s : Race) : Race :=
  match procs s !! i with
  | Some p =>
      let '(p', env', cs) := move_proc i p (shared s) in
      mkRace (<[i := p']> (procs s)) env' (creates s ++ cs)
  | None => s
  end.

(** Modelled from the spec: the informer is not part of this file.  "reads
    the local watch-populated store by key": when the API server holds the
    record, the informer of process [i] files it in its store (the store
    [NewInformer] returns, filled by [controller.Run]). *)
Definition sync (i : nat) (s : Race) : Race :=
  match procs s !! i, configmaps (world (shared s)) !! ingress_uid_key with
  | Some p, Some m =>
      let ci := set_store (store_add m <$> store (p_cache p)) (p_cache p) in
      mkRace (<[i := mkProc ci (p_prog p)]> (procs s)) (shared s) (creates s)
  | _, _ => s
  end.

(** Modelled from the spec: "continuously consumes the watch event stream,
    and for each [Added]/[Modified] event ... calls [SetFromRecord]": the
    informer of process [i] hands the object it has filed to [AddFunc],
    which runs in the informer's goroutine, wherever the caller is. *)
Definition notify (i : nat) (s : Race) : Race :=
  match procs s !! i with
  | Some p =>
      match store (p_cache p) with
      | Some st =>
          match st ingress_uid_key with
          | (obj, true, None) =>
              match run (AddFunc obj) (p_cache p) (shared s) with
              | Some (_, ci, _) =>
                  mkRace (<[i := mkProc ci (p_prog p)]> (procs s))
                         (shared s) (creates s)
              | None => s
              end
          | _ => s
          end
      | None => s
      end
  | None => s
  end.

Definition turn (s : Race) (t : Turn) : Race :=
  match t with
  | Move i => move i s
  | Sync i => sync i s
  | Notify i => notify i s
  end.

(** An interleaving names what happens at each instant. *)
Definition run_turns (ts : list Turn) (s : Race) : Race := foldl turn s ts.

(** [n] processes, none of which has seen the record, all at the start of
    [getOrInitialize]. *)
Definition initializing (n : nat) (env : Env Cluster) : Race :=
  mkRace (replicate n (mkProc fresh_process getOrInitialize)) env [].

Definition all_finished (s : Race) : Prop :=
  Forall (λ p, is_Some (finished p)) (procs s).

(** The calls of [Create] that succeeded, and those of caller [i]. *)
Definition succeeded (cs : list CreateCall) : list CreateCall :=
  filter (λ c, answer c = None) cs.
Definition creates_by (i : nat) (cs : list CreateCall) : list CreateCall :=
  filter (λ c, caller c = i) cs.

Definition AlreadyExists_call (i : nat) (tok : string) : CreateCall :=
  mkCall i (newConfigMap tok) (Some AlreadyExists_ingress_uid).

(** What the informer's store of a process answers under the key of the
    cache: the record [m], or nothing. *)
Definition store_holds (ci : ClusterId) (m : ConfigMap) : Prop :=
  ∃ st, store ci = Some st
        ∧ st (cfgMapKey ci) = (ObjConfigMap (Some m), true, None).
Definition store_holds_nothing (ci : ClusterId) : Prop :=
  ∃ st, store ci = Some st ∧ st (cfgMapKey ci) = (ObjNil, false, None).

(** Both cached identities are [tok]; neither is cached. *)
Definition both_ids (ci : ClusterId) (tok : string) : Prop :=
  clusterId ci = Some tok ∧ providerId ci = Some tok.
Definition no_ids (ci : ClusterId) : Prop :=
  clusterId ci = None ∧ providerId ci = None.

(** Three interleavings: three callers whose informers deliver while the
    calls run; two callers and no delivery; two callers, the informer of
    the second delivering between the first caller's [Create] and the
    second caller's read of its store. *)
Definition three_way_race : list Turn :=
  [Move 0; Move 1; Move 2; Move 2; Move 1; Move 0; Move 0; Move 0; Move 1;
   Move 2; Move 2; Move 1; Move 1; Move 0; Move 0; Move 0; Sync 2; Move 1;
   Notify 0; Move 2; Move 2; Notify 2; Move 2; Move 2; Move 2; Move 1; Move 1;
   Sync 1; Move 1; Move 0; Move 0; Sync 0; Notify 1]%nat.
Definition two_way_race : list Turn :=
  [Move 0; Move 1; Move 0; Move 1; Move 0; Move 1; Move 0; Move 1; Move 0;
   Move 1; Move 0; Move 1; Move 0; Move 1; Move 0; Move 1]%nat.
Definition race_with_delivery : list Turn :=
  [Move 0; Move 1; Move 0; Move 1; Move 0; Move 1; Move 0; Move 0; Move 0;
   Move 0; Move 0; Sync 1; Move 1; Move 1; Move 1; Move 1]%nat.

(** *** Where a caller stands in [getOrInitialize]

    The proof of the race follows every caller through the call.  The
    places it can be at are named here, each with what is left of the
    program text there; the lemmas [move_proc_AtStart] to
    [move_proc_AtSetIds] below show that these are the places the program
    text goes through. *)

(** What is left of a program after an effect on [ci] that leaves the
    world alone. *)
Definition rest {A : Type} (p : Prog A) (ci : ClusterId) : Prog A :=
  (after_effect p ci fresh_cluster).1.1.

(** A store that holds the record. *)
Definition record_store (m : ConfigMap) : Store := store_add m empty_store.

Inductive place : Type :=
| AtStart                  (* in front of [ci.store == nil] *)
| AtCheckId                (* in front of [ci.clusterId != nil] *)
| AtGetConfigMap           (* in [getConfigMap], in front of [ci.store] *)
| AtKey (st : Store)       (* in front of [ci.cfgMapKey] *)
| AtGetByKey (st : Store)  (* in front of [GetByKey] *)
| AtAdopt (tok : string)   (* record found, in front of [setIds] *)
| AtMakeUID                (* nothing found, in front of [rand.Read] *)
| AtCreate (tok : string)  (* token made, in front of [Create] *)
| AtSetIds (tok : string)  (* record created, in front of [setIds] *)
| Created (tok : string)   (* returned nil after its own [Create] *)
| Adopted                  (* returned nil without a [Create] *)
| Refused (tok : string).  (* returned [AlreadyExists] *)

Definition at_create (tok : string) : Prog (option error) :=
  err ← trigger (ClientCreate UIDNamespace (newConfigMap tok));
  match err with
  | Some e => Ret (Some e)
  | None => setIds (newConfigMap tok) ;; Ret None
  end.
Definition at_setIds (tok : string) : Prog (option error) :=
  setIds (newConfigMap tok) ;; Ret None.

Definition at_checkId : Prog (option error) :=
  rest getOrInitialize fresh_process.
Definition at_getConfigMap : Prog (option error) :=
  rest at_checkId fresh_process.
Definition at_key (st : Store) : Prog (option error) :=
  rest at_getConfigMap (watchingClusterId st).
Definition at_GetByKey (st : Store) : Prog (option error) :=
  rest (at_key st) fresh_process.
Definition at_adopt (tok : string) : Prog (option error) :=
  rest (at_GetByKey empty_store)
       (watchingClusterId (record_store (newConfigMap tok))).
Definition at_makeUID : Prog (option error) :=
  rest (at_GetByKey empty_store) fresh_process.

Definition code (pl : place) : Prog (option error) :=
  match pl with
  | AtStart => getOrInitialize
  | AtCheckId => at_checkId
  | AtGetConfigMap => at_getConfigMap
  | AtKey st => at_key st
  | AtGetByKey st => at_GetByKey st
  | AtAdopt tok => at_adopt tok
  | AtMakeUID => at_makeUID
  | AtCreate tok => at_create tok
  | AtSetIds tok => at_setIds tok
  | Created _ | Adopted => Ret None
  | Refused _ => Ret (Some AlreadyExists_ingress_uid)
  end.

(** The calls of [Create] a caller at this place has made. *)
Definition calls_at (i : nat) (pl : place) : list CreateCall :=
  match pl with
  | AtSetIds tok | Created tok => [mkCall i (newConfigMap tok) None]
  | Refused tok => [AlreadyExists_call i tok]
  | _ => []
  end.

(** The state of the API server: nobody has created the record, or caller
    [wi] has, with token [tok]. *)
Definition winner : Type := option (nat * string).

Definition answer_ok (g : winner) (r : GetByKeyResult) : Prop :=
  r = (ObjNil, false, None)
  ∨ ∃ wi tok, g = Some (wi, tok)
              ∧ r = (ObjConfigMap (Some (newConfigMap tok)), true, None).

Definition cache_ok (g : winner) (ci : ClusterId) : Prop :=
  cfgMapKey ci = ingress_uid_key
  ∧ (∃ st, store ci = Some st ∧ answer_ok g (st ingress_uid_key))
  ∧ (no_ids ci ∨ ∃ wi tok, g = Some (wi, tok) ∧ both_ids ci tok).

Definition place_ok (g : winner) (i : nat) (pl : place) (ci : ClusterId)
  : Prop :=
  match pl with
  | AtSetIds tok => g = Some (i, tok)
  | Created tok => g = Some (i, tok) ∧ both_ids ci tok
  | AtAdopt tok => ∃ wi, g = Some (wi, tok) ∧ wi ≠ i
  | Adopted => ∃ wi tok, g = Some (wi, tok) ∧ wi ≠ i ∧ both_ids ci tok
  | Refused _ => ∃ wi tok, g = Some (wi, tok) ∧ wi ≠ i
  | _ => ∀ wi tok, g = Some (wi, tok) → wi ≠ i
  end.

Definition proc_ok (g : winner) (cs : list CreateCall) (i : nat)
    (p : Proc (option error)) : Prop :=
  ∃ pl, p_prog p = code pl
        ∧ cache_ok g (p_cache p)
        ∧ place_ok g i pl (p_cache p)
        ∧ creates_by i cs = calls_at i pl.

Definition server_ok (w0 : Cluster) (g : winner) (s : Race) : Prop :=
  entropy_never_fails (world (shared s))
  ∧ configmaps w0 !! ingress_uid_key = None
  ∧ match g with
    | None =>
        configmaps (world (shared s)) = configmaps w0 ∧ creates s = []
    | Some (wi, tok) =>
        configmaps (world (shared s))
        = <[ingress_uid_key := newConfigMap tok]> (configmaps w0)
        ∧ succeeded (creates s) = [mkCall wi (newConfigMap tok) None]
        ∧ (wi < length (procs s))%nat
    end.

(** The invariant of the race. *)
Definition race_ok (w0 : Cluster) (n : nat) (s : Race) : Prop :=
  length (procs s) = n
  ∧ ∃ g, server_ok w0 g s
         ∧ ∀ i p, procs s !! i = Some p → proc_ok g (creates s) i p.

(** * Properties *)

(** ** Running programs *)

Arguments copy_into : simpl never.
Arguments EncodeToString : simpl never.
Arguments newConfigMap : simpl never.
Arguments setIds_locked : simpl never.
Arguments io_explained : simpl never.

Ltac run_cases :=
  repeat (case_match; simplify_eq/=; try done).

Section Sequential.
Context {World : Type} `{!Environment World}.
Implicit Types (ci : ClusterId) (env : Env World) (m : ConfigMap).

Lemma run_bind {A B : Type} (p : Prog A) (f : A → Prog B) ci env :
  run (p ≫= f) ci env =
  match run p ci env with
  | Some (a, ci', env') => run (f a) ci' env'
  | None => None
  end.
Proof.
  unfold mbind, Prog_bind.
  revert ci env. induction p as [a | X e k IH |]; intros ci env; simpl.
  - reflexivity.
  - destruct (handle e ci env) as [[x ci'] env']. apply IH.
  - reflexivity.
Qed.

Lemma run_setIds m ci env :
  run (setIds m) ci env = Some (tt, setIds_locked m ci, env).
Proof. reflexivity. Qed.

Lemma run_setIds_each ms ci env :
  run (setIds_each ms) ci env
  = Some (tt, foldl (λ c m, setIds_locked m c) ci ms, env).
Proof.
  revert ci. induction ms as [| m ms IH]; intros ci; simpl; [done |].
  apply IH.
Qed.

(** [getOrInitialize] never panics: [getConfigMap] is reached only with
    a store. *)
Lemma getOrInitialize_returns ci env :
  ∃ err ci' env', run getOrInitialize ci env = Some (err, ci', env').
Proof.
  unfold getOrInitialize, getConfigMap, makeUID, setIds. cbn.
  run_cases; eauto.
Qed.

Lemma run_GetId ci env err ci' env' :
  run getOrInitialize ci env = Some (err, ci', env') →
  run GetId ci env =
  Some (match err with
        | Some e => ("", Some e)
        | None => GetId_locked ci'
        end, ci', env').
Proof.
  intros Hinit. unfold GetId. rewrite run_bind, Hinit.
  by destruct err.
Qed.

Lemma run_GetFederationId ci env err ci' env' :
  run getOrInitialize ci env = Some (err, ci', env') →
  run GetFederationId ci env =
  Some (match err with
        | Some e => ("", false, Some e)
        | None => GetFederationId_locked ci'
        end, ci', env').
Proof.
  intros Hinit. unfold GetFederationId. rewrite run_bind, Hinit.
  by destruct err.
Qed.

(** ** Hex tokens *)

Lemma length_copy_into (b src : list byte) :
  length (copy_into b src) = length b.
Proof.
  unfold copy_into. rewrite length_take, length_app, length_drop. lia.
Qed.

Lemma EncodeToString_length (src : list byte) :
  String.length (EncodeToString src) = 2 * length src.
Proof.
  induction src as [| v rest IH]; [done |].
  change (EncodeToString (v :: rest))
    with (String (hex_digit (N.shiftr (Byte.to_N v) 4))
            (String (hex_digit (N.land (Byte.to_N v) 15))
               (EncodeToString rest))).
  simpl. lia.
Qed.

(** A token is sixteen characters long, whatever the entropy source
    offers. *)
Lemma token_of_length (src : list byte) : String.length (token_of src) = 16.
Proof.
  unfold token_of. by rewrite EncodeToString_length, length_copy_into.
Qed.

Lemma EncodeToString_nonempty (src : list byte) :
  src ≠ [] → EncodeToString src ≠ "".
Proof. by destruct src. Qed.

Lemma copy_into_nonempty (b src : list byte) :
  b ≠ [] → copy_into b src ≠ [].
Proof.
  intros Hb Hnil. apply (f_equal length) in Hnil.
  rewrite length_copy_into in Hnil. by destruct b.
Qed.

(** ** [setIds] *)

Lemma setIds_locked_clusterId m ci :
  clusterId (setIds_locked m ci)
  = match Data m !! UIDCluster with
    | Some v => Some v
    | None => clusterId ci
    end.
Proof. unfold setIds_locked. by run_cases. Qed.

Lemma setIds_locked_providerId m ci :
  providerId (setIds_locked m ci)
  = match Data m !! UIDProvider with
    | Some v => Some v
    | None => providerId ci
    end.
Proof. unfold setIds_locked. by run_cases. Qed.

Lemma setIds_locked_store m ci :
  store (setIds_locked m ci) = store ci
  ∧ cfgMapKey (setIds_locked m ci) = cfgMapKey ci.
Proof. unfold setIds_locked. by run_cases. Qed.

Lemma setIds_locked_no_empty_id m ci :
  record_no_empty_id m → no_empty_id ci → no_empty_id (setIds_locked m ci).
Proof.
  intros [Hc Hp] [Hc' Hp']. unfold no_empty_id.
  rewrite setIds_locked_clusterId, setIds_locked_providerId.
  split; case_match; congruence.
Qed.

Lemma newConfigMap_no_empty_id (newId : string) :
  newId ≠ "" → record_no_empty_id (newConfigMap newId).
Proof.
  intros Hne. unfold record_no_empty_id, newConfigMap; simpl.
  rewrite lookup_insert_eq, lookup_insert_ne, lookup_insert_eq by done.
  split; congruence.
Qed.

(** ** The lazy initialisation *)

(** A successful [getOrInitialize] keeps the identities non-empty, when
    the store holds no empty one: what it adopts is either the stored
    record or sixteen hex digits of its own. *)
Lemma getOrInitialize_no_empty_id ci env ci' env' :
  no_empty_id ci → store_no_empty_id ci →
  run getOrInitialize ci env = Some (None, ci', env') →
  no_empty_id ci'.
Proof.
  intros Hci Hst.
  unfold getOrInitialize, getConfigMap, makeUID, setIds. cbn.
  destruct (store ci) as [st |] eqn:Hstore; cbn; [| done].
  destruct (clusterId ci) as [cid |] eqn:Hcid; cbn.
  { by intros [= <- <-]. }
  rewrite Hstore; cbn. specialize (Hst st).
  destruct (st (cfgMapKey ci)) as [[item ex] err] eqn:Hget; cbn.
  destruct err as [e |]; cbn; [done |].
  destruct ex; cbn.
  - destruct item as [| [m |] | dyn]; cbn; try done.
    intros [= <- <-]. apply setIds_locked_no_empty_id; [| done].
    by apply Hst.
  - destruct (entropy_read _ _) as [[src rerr] w]; cbn.
    destruct rerr; cbn; [done |].
    destruct (client_Create _ _ _) as [cerr w']; cbn.
    destruct cerr; cbn; [done |].
    intros [= <- <-]. apply setIds_locked_no_empty_id; [| done].
    apply newConfigMap_no_empty_id, EncodeToString_nonempty.
    by apply copy_into_nonempty.
Qed.

(** C1 (as the code has it): when [Create] fails, with [AlreadyExists] as
    with any other error, [getOrInitialize] returns that very error and
    leaves the cache as it was, and [GetId] and [GetFederationId] hand the
    error on to their caller together with an empty identity. *)
Theorem create_error_is_returned ci env st item src w1 e w2 :
  store ci = Some st →
  clusterId ci = None →
  st (cfgMapKey ci) = (item, false, None) →
  entropy_read UIDLengthBytes (world env) = (src, None, w1) →
  client_Create UIDNamespace (newConfigMap (token_of src)) w1
    = (Some e, w2) →
  ∃ env', world env' = w2
    ∧ run getOrInitialize ci env = Some (Some e, ci, env')
    ∧ run GetId ci env = Some (("", Some e), ci, env')
    ∧ run GetFederationId ci env = Some (("", false, Some e), ci, env').
Proof.
  intros Hstore Hcid Hget Hrand Hcreate.
  assert (∃ env', world env' = w2
            ∧ run getOrInitialize ci env = Some (Some e, ci, env'))
    as (env' & Hw & Hrun).
  { unfold getOrInitialize, getConfigMap, makeUID, setIds. cbn.
    rewrite Hstore; cbn. rewrite Hcid; cbn. rewrite Hstore; cbn.
    rewrite Hget; cbn.
    unfold token_of, UIDLengthBytes in Hrand, Hcreate. cbn in Hcreate.
    rewrite Hrand; cbn. rewrite Hcreate; cbn.
    eexists; split; [| reflexivity]. reflexivity. }
  exists env'. split; [done |]. split; [done |].
  by rewrite (run_GetId _ _ _ _ _ Hrun), (run_GetFederationId _ _ _ _ _ Hrun).
Qed.

(** C2: after a successful [getOrInitialize], [GetId] fails with "Could
    not retrieve cluster id" when [clusterId] is absent; it returns
    [providerId] when that is present and differs from [clusterId]; and it
    returns [clusterId] in every other case. *)
Theorem GetId_after_init ci env ci' env' :
  run getOrInitialize ci env = Some (None, ci', env') →
  ∃ r, run GetId ci env = Some (r, ci', env')
    ∧ (clusterId ci' = None → r = ("", Some ErrNoClusterId))
    ∧ (∀ cid pid, clusterId ci' = Some cid → providerId ci' = Some pid →
         pid ≠ cid → r = (pid, None))
    ∧ (∀ cid, clusterId ci' = Some cid →
         providerId ci' = None ∨ providerId ci' = Some cid →
         r = (cid, None)).
Proof.
  intros Hinit. eexists. split; [by apply run_GetId |].
  unfold GetId_locked. split; [| split].
  - by intros ->.
  - intros cid pid -> -> Hne. by rewrite bool_decide_true.
  - intros cid -> [-> | ->]; [done |].
    by rewrite bool_decide_false by (intros Hne; by apply Hne).
Qed.

(** C3: after a successful [getOrInitialize] that leaves [clusterId]
    present, [GetFederationId] returns [("", false, nil)] when
    [providerId] is absent or equal to [clusterId], and
    [(clusterId, true, nil)], the local id, when [providerId] is present
    and different. *)
Theorem GetFederationId_after_init ci env ci' env' cid :
  run getOrInitialize ci env = Some (None, ci', env') →
  clusterId ci' = Some cid →
  ∃ r, run GetFederationId ci env = Some (r, ci', env')
    ∧ (providerId ci' = None ∨ providerId ci' = Some cid →
         r = ("", false, None))
    ∧ (∀ pid, providerId ci' = Some pid → pid ≠ cid →
         r = (cid, true, None)).
Proof.
  intros Hinit Hcid. eexists. split; [by apply run_GetFederationId |].
  unfold GetFederationId_locked. rewrite Hcid. split.
  - intros [-> | ->]; [done |]. by rewrite bool_decide_true.
  - intros pid -> Hne. by rewrite bool_decide_false by congruence.
Qed.

(** C4 (as the code has it): both readers return the same state of the
    cache and of the world, and their answers go together in one of four
    ways.  If [getOrInitialize] fails, both return its error with an empty
    identity.  If it succeeds and [clusterId] is absent, both return "Could
    not retrieve cluster id" with an empty identity.  If [clusterId] is
    present and [providerId] is absent or equal to it, [GetId] returns
    [clusterId] and [GetFederationId] returns the empty string with
    [false] and no error.  If [providerId] is present and different,
    [GetId] returns [providerId] and [GetFederationId] returns [clusterId]
    with [true].  The identities returned without an error are not empty,
    as long as neither the cache nor the stored record holds an empty
    one. *)
Theorem identity_or_error ci env :
  no_empty_id ci → store_no_empty_id ci →
  ∃ err ci' env' rG rF,
    run getOrInitialize ci env = Some (err, ci', env')
    ∧ run GetId ci env = Some (rG, ci', env')
    ∧ run GetFederationId ci env = Some (rF, ci', env')
    ∧ ((∃ e, err = Some e ∧ rG = ("", Some e) ∧ rF = ("", false, Some e))
       ∨ (err = None ∧ clusterId ci' = None
          ∧ rG = ("", Some ErrNoClusterId)
          ∧ rF = ("", false, Some ErrNoClusterId))
       ∨ (∃ cid, err = None ∧ clusterId ci' = Some cid ∧ cid ≠ ""
            ∧ (providerId ci' = None ∨ providerId ci' = Some cid)
            ∧ rG = (cid, None) ∧ rF = ("", false, None))
       ∨ (∃ cid pid, err = None ∧ clusterId ci' = Some cid
            ∧ providerId ci' = Some pid ∧ pid ≠ cid
            ∧ cid ≠ "" ∧ pid ≠ ""
            ∧ rG = (pid, None) ∧ rF = (cid, true, None))).
Proof.
  intros Hci Hst.
  destruct (getOrInitialize_returns ci env) as (err & ci' & env' & Hinit).
  exists err, ci', env'. do 2 eexists.
  split; [exact Hinit |].
  split; [apply (run_GetId _ _ _ _ _ Hinit) |].
  split; [apply (run_GetFederationId _ _ _ _ _ Hinit) |].
  destruct err as [e |]; [left; by exists e |]. right.
  destruct (getOrInitialize_no_empty_id _ _ _ _ Hci Hst Hinit) as [Hc Hp].
  unfold GetId_locked, GetFederationId_locked.
  destruct (clusterId ci') as [cid |] eqn:Hcid; [| by left]. right.
  assert (cid ≠ "") by congruence.
  destruct (providerId ci') as [pid |] eqn:Hpid.
  2:{ left. exists cid. auto 10. }
  assert (pid ≠ "") by congruence.
  destruct (decide (pid = cid)) as [-> | Hne].
  - left. exists cid.
    rewrite bool_decide_false by (intros Hne; by apply Hne).
    rewrite bool_decide_true by done. auto 10.
  - right. exists cid, pid.
    rewrite bool_decide_true by done.
    rewrite bool_decide_false by congruence. auto 10.
Qed.

(** C6: while the store is not set, [GetId] and [GetFederationId] fail at
    once with the "not ready" error; the cache, the world and the record
    of input and output are what they were, so that no store was read and
    nothing was created. *)
Theorem not_ready_fails_fast ci env :
  store ci = None →
  run GetId ci env = Some (("", Some ErrNotReady), ci, env)
  ∧ run GetFederationId ci env = Some (("", false, Some ErrNotReady), ci, env)
  ∧ run getOrInitialize ci env = Some (Some ErrNotReady, ci, env).
Proof.
  intros Hstore.
  assert (run getOrInitialize ci env = Some (Some ErrNotReady, ci, env))
    as Hinit.
  { unfold getOrInitialize. cbn. by rewrite Hstore. }
  by rewrite (run_GetId _ _ _ _ _ Hinit), (run_GetFederationId _ _ _ _ _ Hinit).
Qed.

Lemma setIds_each_clusterId_source ms ci :
  let ci' := foldl (λ c m, setIds_locked m c) ci ms in
  clusterId ci' = clusterId ci
  ∨ ∃ m v, m ∈ ms ∧ Data m !! UIDCluster = Some v ∧ clusterId ci' = Some v.
Proof.
  revert ci. induction ms as [| m ms IH]; intros ci; simpl; [by left |].
  destruct (IH (setIds_locked m ci)) as [Heq | (m' & v & Hin & Hv & Heq)].
  - rewrite Heq, setIds_locked_clusterId.
    destruct (Data m !! UIDCluster) as [v |] eqn:Hv; [| by left].
    right. exists m, v. split; [by left | done].
  - right. exists m', v. split; [by right | done].
Qed.

Lemma setIds_each_clusterId_present ms ci :
  clusterId ci ≠ None →
  clusterId (foldl (λ c m, setIds_locked m c) ci ms) ≠ None.
Proof.
  revert ci. induction ms as [| m ms IH]; intros ci Hci; simpl; [done |].
  apply IH. rewrite setIds_locked_clusterId. by case_match.
Qed.

(** C7: once [clusterId] is present, no sequence of [setIds] calls,
    whatever the records, makes it absent again; what it holds afterwards
    is what it held before or the [uid] field of one of the records. *)
Theorem clusterId_never_cleared ci env ms :
  clusterId ci ≠ None →
  ∃ ci', run (setIds_each ms) ci env = Some (tt, ci', env)
    ∧ clusterId ci' ≠ None
    ∧ (clusterId ci' = clusterId ci
       ∨ ∃ m v, m ∈ ms ∧ Data m !! UIDCluster = Some v
                ∧ clusterId ci' = Some v).
Proof.
  intros Hci. eexists. split; [apply run_setIds_each |].
  split; [by apply setIds_each_clusterId_present |].
  apply setIds_each_clusterId_source.
Qed.

(** C8: a [setIds] whose record lacks the [uid] field leaves [clusterId]
    as it was, and one whose record lacks the [provider-uid] field leaves
    [providerId] as it was. *)
Theorem absent_field_untouched m ci env :
  ∃ ci', run (setIds m) ci env = Some (tt, ci', env)
    ∧ (Data m !! UIDCluster = None → clusterId ci' = clusterId ci)
    ∧ (Data m !! UIDProvider = None → providerId ci' = providerId ci).
Proof.
  eexists. split; [apply run_setIds |]. split; intros Hnone.
  - by rewrite setIds_locked_clusterId, Hnone.
  - by rewrite setIds_locked_providerId, Hnone.
Qed.

Lemma setIds_locked_idempotent m ci :
  setIds_locked m (setIds_locked m ci) = setIds_locked m ci.
Proof. unfold setIds_locked. by run_cases. Qed.

(** C9: applying the same record twice leaves the cache, and so both
    identities, as applying it once does. *)
Theorem setIds_idempotent m ci env :
  run (setIds m ;; setIds m) ci env = run (setIds m) ci env
  ∧ ∃ ci1 ci2, run (setIds m) ci env = Some (tt, ci1, env)
      ∧ run (setIds m) ci1 env = Some (tt, ci2, env)
      ∧ clusterId ci2 = clusterId ci1 ∧ providerId ci2 = providerId ci1.
Proof.
  split.
  - rewrite run_bind, !run_setIds. by rewrite setIds_locked_idempotent.
  - do 2 eexists. rewrite !run_setIds.
    split; [done |]. split; [done |].
    by rewrite setIds_locked_idempotent.
Qed.

(** C10: whenever [getOrInitialize] returns an error, the cache, and so
    [clusterId] and [providerId], is exactly what it was before the call;
    and the error has one of five causes: store not ready, store read
    failure, stored item of the wrong type, token generation failure,
    creation failure. *)
Theorem error_leaves_cache ci env e ci' env' :
  run getOrInitialize ci env = Some (Some e, ci', env') →
  ci' = ci ∧ clusterId ci' = clusterId ci ∧ providerId ci' = providerId ci
  ∧ error_cause ci env e.
Proof.
  unfold getOrInitialize, getConfigMap, makeUID, setIds. cbn.
  intros Hrun. assert (ci' = ci ∧ error_cause ci env e) as [-> Hcause];
    [| done].
  unfold error_cause.
  destruct (store ci) as [st |] eqn:Hstore; cbn in Hrun.
  2:{ injection Hrun as <- <- <-. split; [done |]. by left. }
  destruct (clusterId ci) as [cid |] eqn:Hcid; cbn in Hrun; [done |].
  rewrite Hstore in Hrun; cbn in Hrun.
  destruct (st (cfgMapKey ci)) as [[item ex] err] eqn:Hget; cbn in Hrun.
  destruct err as [e' |]; cbn in Hrun.
  { injection Hrun as <- <- <-. split; [done |]. right.
    exists st, item, ex, (Some e'). auto. }
  destruct ex; cbn in Hrun.
  - destruct item as [| [m |] | dyn]; cbn in Hrun; try done;
      injection Hrun as <- <- <-; (split; [done |]); right;
      eexists st, _, true, None; (repeat split; [done .. |]);
      right; left; done.
  - destruct (entropy_read _ _) as [[src rerr] w] eqn:Hrand; cbn in Hrun.
    destruct rerr as [e' |]; cbn in Hrun.
    { injection Hrun as <- <- <-. split; [done |]. right.
      exists st, item, false, None. repeat split; [done .. |].
      right; right. repeat split; [done .. |]. exists src, w. by left. }
    destruct (client_Create _ _ _) as [cerr w'] eqn:Hcreate; cbn in Hrun.
    destruct cerr as [e' |]; cbn in Hrun; [| done].
    injection Hrun as <- <- <-. split; [done |]. right.
    exists st, item, false, None. repeat split; [done .. |].
    right; right. repeat split; [done .. |]. exists src, w. right.
    split; [done |]. by exists w'.
Qed.
End Sequential.

(** ** The statements at work on a small cluster *)

Example first_call_creates :
  run getOrInitialize fresh_process fresh_cluster
  = Some (None, first_initialized, cluster_after_first_create)
  ∧ clusterId first_initialized = Some "0001020304050607"
  ∧ providerId first_initialized = Some "0001020304050607"
  ∧ configmaps (world cluster_after_first_create)
      !! "kube-system/ingress-uid"
    = Some (newConfigMap "0001020304050607").
Proof. repeat split; reflexivity. Qed.

(** C1, refuted as stated: a second process whose store has not yet seen
    the record calls [Create], which fails with [AlreadyExists];
    [getOrInitialize] does not return success but that error, and [GetId]
    and [GetFederationId] pass it on to their caller. *)
Lemma AlreadyExists_reaches_the_caller :
  ∃ env',
    IsAlreadyExists AlreadyExists_ingress_uid = true
    ∧ last (trace env')
      = Some (IOCreate UIDNamespace (newConfigMap "1011121314151617"))
    ∧ run getOrInitialize fresh_process cluster_after_first_create
      = Some (Some AlreadyExists_ingress_uid, fresh_process, env')
    ∧ run GetId fresh_process cluster_after_first_create
      = Some (("", Some AlreadyExists_ingress_uid), fresh_process, env')
    ∧ run GetFederationId fresh_process cluster_after_first_create
      = Some (("", false, Some AlreadyExists_ingress_uid), fresh_process, env').
Proof.
  eexists. split; [reflexivity |]. split; [| repeat split; reflexivity].
  reflexivity.
Qed.

Lemma create_error_is_returned_witness :
  ∃ env',
    run getOrInitialize fresh_process cluster_after_first_create
    = Some (Some AlreadyExists_ingress_uid, fresh_process, env')
    ∧ run GetId fresh_process cluster_after_first_create
      = Some (("", Some AlreadyExists_ingress_uid), fresh_process, env')
    ∧ run GetFederationId fresh_process cluster_after_first_create
      = Some (("", false, Some AlreadyExists_ingress_uid), fresh_process, env').
Proof.
  edestruct (create_error_is_returned fresh_process cluster_after_first_create
               empty_store ObjNil) as (env' & _ & Hrun);
    [reflexivity | reflexivity | reflexivity | reflexivity | reflexivity |].
  exists env'. exact Hrun.
Defined.

Lemma GetId_after_init_witness :
  ∃ r, run GetId fresh_process fresh_cluster
       = Some (r, first_initialized, cluster_after_first_create)
    ∧ (clusterId first_initialized = None → r = ("", Some ErrNoClusterId))
    ∧ (∀ cid pid, clusterId first_initialized = Some cid →
         providerId first_initialized = Some pid →
         pid ≠ cid → r = (pid, None))
    ∧ (∀ cid, clusterId first_initialized = Some cid →
         providerId first_initialized = None
         ∨ providerId first_initialized = Some cid →
         r = (cid, None)).
Proof. apply GetId_after_init. reflexivity. Defined.

Lemma GetFederationId_after_init_witness :
  ∃ r, run GetFederationId fresh_process fresh_cluster
       = Some (r, first_initialized, cluster_after_first_create)
    ∧ (providerId first_initialized = None
       ∨ providerId first_initialized = Some "0001020304050607" →
         r = ("", false, None))
    ∧ (∀ pid, providerId first_initialized = Some pid →
         pid ≠ "0001020304050607" →
         r = ("0001020304050607", true, None)).
Proof.
  apply GetFederationId_after_init; reflexivity.
Defined.

(** C4, refuted as stated: the very first [GetFederationId] of a fresh
    process in a fresh cluster creates the record and then returns the empty
    string together with a nil error. *)
Lemma GetFederationId_empty_without_error :
  run GetFederationId fresh_process fresh_cluster
  = Some (("", false, None), first_initialized, cluster_after_first_create).
Proof. reflexivity. Qed.

(** [GetId] adopts an empty [uid] as it adopts any other. *)
Example GetId_empty_uid :
  ∃ ci' env',
    run GetId (watchingClusterId empty_uid_store) fresh_cluster
    = Some (("", None), ci', env').
Proof. do 2 eexists. reflexivity. Qed.

(** [setIds] takes an empty [uid] for a value like any other: [clusterId]
    is then present and holds the empty string. *)
Example setIds_empty_uid :
  ∃ ci',
    run (setIds {| Namespace := UIDNamespace; Name := UIDConfigMapName;
                   Data := <[UIDCluster := ""]> ∅ |})
        first_initialized fresh_cluster
    = Some (tt, ci', fresh_cluster)
    ∧ clusterId ci' = Some "".
Proof. eexists. split; reflexivity. Qed.

Lemma identity_or_error_witness :
  ∃ err ci' env' rG rF,
    run getOrInitialize fresh_process fresh_cluster = Some (err, ci', env')
    ∧ run GetId fresh_process fresh_cluster = Some (rG, ci', env')
    ∧ run GetFederationId fresh_process fresh_cluster = Some (rF, ci', env')
    ∧ ((∃ e, err = Some e ∧ rG = ("", Some e) ∧ rF = ("", false, Some e))
       ∨ (err = None ∧ clusterId ci' = None
          ∧ rG = ("", Some ErrNoClusterId)
          ∧ rF = ("", false, Some ErrNoClusterId))
       ∨ (∃ cid, err = None ∧ clusterId ci' = Some cid ∧ cid ≠ ""
            ∧ (providerId ci' = None ∨ providerId ci' = Some cid)
            ∧ rG = (cid, None) ∧ rF = ("", false, None))
       ∨ (∃ cid pid, err = None ∧ clusterId ci' = Some cid
            ∧ providerId ci' = Some pid ∧ pid ≠ cid
            ∧ cid ≠ "" ∧ pid ≠ ""
            ∧ rG = (pid, None) ∧ rF = (cid, true, None))).
Proof.
  apply identity_or_error.
  - split; discriminate.
  - intros st m [= <-]. discriminate.
Defined.

Lemma not_ready_fails_fast_witness :
  run GetId newClusterId fresh_cluster
  = Some (("", Some ErrNotReady), newClusterId, fresh_cluster)
  ∧ run GetFederationId newClusterId fresh_cluster
    = Some (("", false, Some ErrNotReady), newClusterId, fresh_cluster)
  ∧ run getOrInitialize newClusterId fresh_cluster
    = Some (Some ErrNotReady, newClusterId, fresh_cluster).
Proof. apply not_ready_fails_fast. reflexivity. Defined.

Lemma clusterId_never_cleared_witness :
  ∃ ci', run (setIds_each [record_without_ids; newConfigMap "ab"])
             first_initialized fresh_cluster
         = Some (tt, ci', fresh_cluster)
    ∧ clusterId ci' ≠ None
    ∧ (clusterId ci' = clusterId first_initialized
       ∨ ∃ m v, m ∈ [record_without_ids; newConfigMap "ab"]
                ∧ Data m !! UIDCluster = Some v ∧ clusterId ci' = Some v).
Proof.
  apply clusterId_never_cleared. intros Hnone.
  vm_compute in Hnone. discriminate Hnone.
Defined.

Lemma absent_field_untouched_witness :
  ∃ ci', run (setIds record_without_ids) first_initialized fresh_cluster
         = Some (tt, ci', fresh_cluster)
    ∧ clusterId ci' = clusterId first_initialized
    ∧ providerId ci' = providerId first_initialized.
Proof.
  destruct (absent_field_untouched record_without_ids first_initialized
              fresh_cluster) as (ci' & Hrun & Hc & Hp).
  exists ci'. split; [exact Hrun |].
  split; [apply Hc | apply Hp]; reflexivity.
Defined.

Lemma error_leaves_cache_witness :
  ∃ ci' env',
    run getOrInitialize fresh_process cluster_after_first_create
    = Some (Some AlreadyExists_ingress_uid, ci', env')
    ∧ ci' = fresh_process
    ∧ clusterId ci' = clusterId fresh_process
    ∧ providerId ci' = providerId fresh_process
    ∧ error_cause fresh_process cluster_after_first_create
        AlreadyExists_ingress_uid.
Proof.
  assert (∃ ci' env',
            run getOrInitialize fresh_process cluster_after_first_create
            = Some (Some AlreadyExists_ingress_uid, ci', env'))
    as (ci' & env' & Hrun) by (do 2 eexists; reflexivity).
  exists ci', env'. split; [exact Hrun |].
  exact (error_leaves_cache _ _ _ _ _ Hrun).
Defined.

(** ** The race for the first creation *)

Section AfterTheRace.
Context {World : Type} `{!Environment World}.

Lemma newConfigMap_ids tok ci :
  clusterId (setIds_locked (newConfigMap tok) ci) = Some tok
  ∧ providerId (setIds_locked (newConfigMap tok) ci) = Some tok
  ∧ store (setIds_locked (newConfigMap tok) ci) = store ci.
Proof.
  rewrite setIds_locked_clusterId, setIds_locked_providerId.
  unfold newConfigMap; simpl.
  rewrite lookup_insert_eq, lookup_insert_ne, lookup_insert_eq by done.
  split; [done |]. split; [done |]. apply setIds_locked_store.
Qed.

(** The fast path: a cache that holds the same value in both fields. *)
Lemma run_GetId_cached ci (env : Env World) st tok :
  store ci = Some st → clusterId ci = Some tok → providerId ci = Some tok →
  run GetId ci env = Some ((tok, None), ci, env).
Proof.
  intros Hst Hc Hp.
  assert (run getOrInitialize ci env = Some (None, ci, env)) as Hinit.
  { unfold getOrInitialize; cbn. rewrite Hst; cbn. by rewrite Hc. }
  rewrite (run_GetId _ _ _ _ _ Hinit). unfold GetId_locked.
  rewrite Hc, Hp. by rewrite bool_decide_false by (intros Hne; by apply Hne).
Qed.

(** The store holds the record and the cache does not: the record is
    adopted after one read of the store. *)
Lemma run_getOrInitialize_hit ci (env : Env World) st m :
  store ci = Some st → clusterId ci = None →
  st (cfgMapKey ci) = (ObjConfigMap (Some m), true, None) →
  run getOrInitialize ci env
  = Some (None, setIds_locked m ci,
          mkEnv (world env) (trace env ++ [IOGetByKey (cfgMapKey ci)])).
Proof.
  intros Hst Hcid Hget. unfold getOrInitialize, getConfigMap, setIds. cbn.
  rewrite Hst; cbn. rewrite Hcid; cbn. rewrite Hst; cbn.
  by rewrite Hget.
Qed.
End AfterTheRace.

Lemma watch_delivery_ids ci (env : Env Cluster) st tok :
  store ci = Some st →
  configmaps (world env) !! ingress_uid_key = Some (newConfigMap tok) →
  clusterId (watch_delivery ci env) = Some tok
  ∧ providerId (watch_delivery ci env) = Some tok
  ∧ store (watch_delivery ci env) = Some (store_add (newConfigMap tok) st).
Proof.
  intros Hst Hm. unfold watch_delivery.
  change (object_key UIDNamespace UIDConfigMapName) with ingress_uid_key.
  rewrite Hm. unfold informer_Added.
  change (AddFunc (ObjConfigMap (Some (newConfigMap tok))))
    with (setIds (newConfigMap tok)).
  rewrite run_setIds.
  destruct (newConfigMap_ids tok
              (set_store (store_add (newConfigMap tok) <$> store ci) ci))
    as (Hc & Hp & Hs).
  rewrite Hc, Hp, Hs; simpl. by rewrite Hst.
Qed.

(** *** The places of [getOrInitialize]

    Whatever the other goroutines have done, the next effect of a caller at
    a named place leads to a named place. *)

Section Places.
Implicit Types (ci : ClusterId) (env : Env Cluster) (i : nat).

Lemma move_proc_AtStart i ci env st :
  store ci = Some st →
  move_proc i (mkProc ci (code AtStart)) env
  = (mkProc ci (code AtCheckId), env, []).
Proof.
  intros Hst. unfold move_proc; cbn. rewrite Hst. reflexivity.
Qed.

Lemma move_proc_AtCheckId i ci env :
  move_proc i (mkProc ci (code AtCheckId)) env
  = (mkProc ci (match clusterId ci with
                | Some _ => code Adopted
                | None => code AtGetConfigMap
                end), env, []).
Proof.
  unfold move_proc; cbn. destruct (clusterId ci); reflexivity.
Qed.

Lemma move_proc_AtGetConfigMap i ci env st :
  store ci = Some st →
  move_proc i (mkProc ci (code AtGetConfigMap)) env
  = (mkProc ci (code (AtKey st)), env, []).
Proof.
  intros Hst. unfold move_proc; cbn. rewrite Hst. reflexivity.
Qed.

Lemma move_proc_AtKey i ci env st :
  cfgMapKey ci = ingress_uid_key →
  move_proc i (mkProc ci (code (AtKey st))) env
  = (mkProc ci (code (AtGetByKey st)), env, []).
Proof.
  intros Hkey. unfold move_proc; cbn. rewrite Hkey. reflexivity.
Qed.

Lemma move_proc_AtGetByKey_miss i ci env st live :
  store ci = Some live → live ingress_uid_key = (ObjNil, false, None) →
  move_proc i (mkProc ci (code (AtGetByKey st))) env
  = (mkProc ci (code AtMakeUID),
     mkEnv (world env) (trace env ++ [IOGetByKey ingress_uid_key]), []).
Proof.
  intros Hst Hmiss. unfold move_proc; cbn. rewrite Hst; cbn.
  change (UIDNamespace +:+ "/" +:+ UIDConfigMapName) with ingress_uid_key.
  rewrite Hmiss. reflexivity.
Qed.

Lemma move_proc_AtGetByKey_hit i ci env st live tok :
  store ci = Some live →
  live ingress_uid_key = (ObjConfigMap (Some (newConfigMap tok)), true, None) →
  move_proc i (mkProc ci (code (AtGetByKey st))) env
  = (mkProc ci (code (AtAdopt tok)),
     mkEnv (world env) (trace env ++ [IOGetByKey ingress_uid_key]), []).
Proof.
  intros Hst Hhit. unfold move_proc; cbn. rewrite Hst; cbn.
  change (UIDNamespace +:+ "/" +:+ UIDConfigMapName) with ingress_uid_key.
  rewrite Hhit. reflexivity.
Qed.

Lemma move_proc_AtAdopt i ci env tok :
  move_proc i (mkProc ci (code (AtAdopt tok))) env
  = (mkProc (setIds_locked (newConfigMap tok) ci) (code Adopted), env, []).
Proof. reflexivity. Qed.

Lemma move_proc_AtMakeUID i ci env src :
  entropy (world env) (drawn (world env)) = (src, None) →
  move_proc i (mkProc ci (code AtMakeUID)) env
  = (mkProc ci (code (AtCreate (token_of src))),
     mkEnv {| configmaps := configmaps (world env);
              entropy := entropy (world env);
              drawn := S (drawn (world env)) |}
           (trace env ++ [IORandRead UIDLengthBytes]), []).
Proof.
  intros Hsrc. unfold move_proc; cbn. rewrite Hsrc. reflexivity.
Qed.

Lemma move_proc_AtCreate_first i ci env tok :
  configmaps (world env) !! ingress_uid_key = None →
  move_proc i (mkProc ci (code (AtCreate tok))) env
  = (mkProc ci (code (AtSetIds tok)),
     mkEnv {| configmaps := <[ingress_uid_key := newConfigMap tok]>
                              (configmaps (world env));
              entropy := entropy (world env);
              drawn := drawn (world env) |}
           (trace env ++ [IOCreate UIDNamespace (newConfigMap tok)]),
     [mkCall i (newConfigMap tok) None]).
Proof.
  intros Hnone. unfold move_proc; cbn. unfold cluster_Create; cbn.
  change (object_key UIDNamespace (Name (newConfigMap tok)))
    with ingress_uid_key.
  rewrite Hnone. reflexivity.
Qed.

Lemma move_proc_AtCreate_late i ci env tok m :
  configmaps (world env) !! ingress_uid_key = Some m →
  move_proc i (mkProc ci (code (AtCreate tok))) env
  = (mkProc ci (code (Refused tok)),
     mkEnv (world env)
           (trace env ++ [IOCreate UIDNamespace (newConfigMap tok)]),
     [AlreadyExists_call i tok]).
Proof.
  intros Hsome. unfold move_proc; cbn. unfold cluster_Create; cbn.
  change (object_key UIDNamespace (Name (newConfigMap tok)))
    with ingress_uid_key.
  rewrite Hsome. reflexivity.
Qed.

Lemma move_proc_AtSetIds i ci env tok :
  move_proc i (mkProc ci (code (AtSetIds tok))) env
  = (mkProc (setIds_locked (newConfigMap tok) ci) (code (Created tok)),
     env, []).
Proof. reflexivity. Qed.

End Places.

(** *** The invariant *)

Section Invariant.
Implicit Types (ci : ClusterId) (env : Env Cluster) (i j : nat)
  (g : winner) (cs : list CreateCall).

Lemma setIds_locked_cfgMapKey m ci :
  cfgMapKey (setIds_locked m ci) = cfgMapKey ci.
Proof. unfold setIds_locked. by repeat case_match. Qed.

Lemma creates_by_app i cs1 cs2 :
  creates_by i (cs1 ++ cs2) = (creates_by i cs1 ++ creates_by i cs2)%list.
Proof. apply filter_app. Qed.

Lemma creates_by_own i cfg r : creates_by i [mkCall i cfg r] = [mkCall i cfg r].
Proof. unfold creates_by. by rewrite filter_cons_True. Qed.

Lemma creates_by_other i j cfg r : j ≠ i → creates_by j [mkCall i cfg r] = [].
Proof.
  intros Hne. unfold creates_by. rewrite filter_cons_False; [done |].
  simpl. congruence.
Qed.

(** What holds of a cache and of a place stays so when the record is
    created by somebody else. *)
Lemma cache_ok_mono g g' ci :
  g' = g ∨ g = None → cache_ok g ci → cache_ok g' ci.
Proof.
  intros [-> | ->]; [done |].
  intros (Hkey & (st & Hst & Hans) & Hids). split; [done |]. split.
  - exists st. split; [done |].
    destruct Hans as [Hmiss | (wi & tok & ? & _)]; [by left | done].
  - destruct Hids as [Hno | (wi & tok & ? & _)]; [by left | done].
Qed.

Lemma place_ok_frame g g' i j pl ci :
  j ≠ i → g' = g ∨ (g = None ∧ ∃ tok, g' = Some (i, tok)) →
  place_ok g j pl ci → place_ok g' j pl ci.
Proof.
  intros Hne [-> | (-> & tok & ->)]; [done |].
  destruct pl; simpl; try done;
    try (intros _ wi tok' [= <- <-]; done);
    try (intros (? & ? & _); done);
    try (intros (? & ? & ? & _); done);
    try (intros (? & _); done).
Qed.

Lemma proc_ok_frame g g' cs cs' i j p :
  j ≠ i → g' = g ∨ (g = None ∧ ∃ tok, g' = Some (i, tok)) →
  creates_by j cs' = creates_by j cs →
  proc_ok g cs j p → proc_ok g' cs' j p.
Proof.
  intros Hne Hg Hcs (pl & Hprog & Hcache & Hplace & Hcalls).
  exists pl. split; [done |]. split.
  { eapply cache_ok_mono; [| done]. destruct Hg as [-> | (-> & _)]; auto. }
  split; [by eapply place_ok_frame |]. by rewrite Hcs.
Qed.

Lemma race_ok_moved w0 n s g g' i p' env' cs' :
  length (procs s) = n →
  (∀ j p, procs s !! j = Some p → proc_ok g (creates s) j p) →
  g' = g ∨ (g = None ∧ ∃ tok, g' = Some (i, tok)) →
  (∀ j, j ≠ i → creates_by j cs' = creates_by j (creates s)) →
  server_ok w0 g' (mkRace (<[i := p']> (procs s)) env' cs') →
  proc_ok g' cs' i p' →
  race_ok w0 n (mkRace (<[i := p']> (procs s)) env' cs').
Proof.
  intros Hlen Hprocs Hg Hcs Hserver Hp. split.
  { simpl. by rewrite length_insert. }
  exists g'. split; [done |]. simpl. intros j p Hj.
  destruct (decide (j = i)) as [-> | Hne].
  - apply list_lookup_insert_Some in Hj as [(_ & <- & _) | [? _]]; done.
  - rewrite list_lookup_insert_ne in Hj by done.
    eapply proc_ok_frame; [done | done | by apply Hcs | by apply Hprocs].
Qed.

Lemma cache_ok_setIds g wi tok ci :
  g = Some (wi, tok) → cache_ok g ci →
  cache_ok g (setIds_locked (newConfigMap tok) ci)
  ∧ both_ids (setIds_locked (newConfigMap tok) ci) tok.
Proof.
  intros Hg (Hkey & (st & Hst & Hans) & Hids).
  destruct (newConfigMap_ids tok ci) as (Hc & Hp & Hs).
  split; [| done]. split; [by rewrite setIds_locked_cfgMapKey |]. split.
  - exists st. by rewrite Hs.
  - right. by exists wi, tok.
Qed.

Lemma cache_ok_sync g wi tok ci :
  g = Some (wi, tok) → cache_ok g ci →
  cache_ok g (set_store (store_add (newConfigMap tok) <$> store ci) ci).
Proof.
  intros Hg (Hkey & (st & Hst & Hans) & Hids).
  split; [done |]. split.
  - exists (store_add (newConfigMap tok) st). split; [by rewrite Hst |].
    right. by exists wi, tok.
  - done.
Qed.

Lemma server_ok_same w0 g s s' :
  world (shared s') = world (shared s) → creates s' = creates s →
  length (procs s') = length (procs s) →
  server_ok w0 g s → server_ok w0 g s'.
Proof.
  unfold server_ok. intros -> -> ->. done.
Qed.

End Invariant.

(** *** Every turn keeps the invariant *)

Section Turns.
Implicit Types (ci : ClusterId) (env : Env Cluster) (i j : nat)
  (g : winner) (cs : list CreateCall).

(** A caller moves on without a call of [Create]. *)
Lemma race_ok_local w0 n s g i ci' pl pl' env' :
  world env' = world (shared s) →
  length (procs s) = n →
  (∀ j p, procs s !! j = Some p → proc_ok g (creates s) j p) →
  server_ok w0 g s →
  creates_by i (creates s) = calls_at i pl →
  cache_ok g ci' → place_ok g i pl' ci' → calls_at i pl' = calls_at i pl →
  race_ok w0 n (mkRace (<[i := mkProc ci' (code pl')]> (procs s)) env'
                       (creates s ++ [])).
Proof.
  intros Hworld Hlen Hprocs Hserver Hcs Hcache Hplace Hcalls.
  rewrite app_nil_r.
  eapply race_ok_moved; [done | done | by left | done | |].
  - eapply server_ok_same; [| | | done]; [done | done |].
    simpl. by rewrite length_insert.
  - exists pl'. split; [done |]. split; [done |]. split; [done |].
    by rewrite Hcalls.
Qed.

Lemma move_ok w0 n s i : race_ok w0 n s → race_ok w0 n (move i s).
Proof.
  intros (Hlen & g & Hserver & Hprocs). unfold move.
  destruct (procs s !! i) as [p |] eqn:Hi; [| split; [done | by exists g]].
  destruct (Hprocs i p Hi) as (pl & Hprog & Hcache & Hplace & Hcalls).
  destruct p as [ci prog]; simpl in Hprog, Hcache, Hplace; subst prog.
  pose proof Hcache as (Hkey & (live & Hst & Hans) & Hids).
  pose proof Hserver as (Hent & Hw0 & Hg).
  destruct pl as [| | | st | st | tok | | tok | tok | tok | | tok].
  - (* in front of the test of [ci.store] *)
    rewrite (move_proc_AtStart _ _ _ _ Hst).
    by eapply race_ok_local.
  - (* in front of the test of [ci.clusterId] *)
    rewrite move_proc_AtCheckId.
    destruct (clusterId ci) as [cid |] eqn:Hcid.
    + eapply race_ok_local; [done .. | | done].
      destruct Hids as [[Hno _] | (wi & tok & Hgw & Hboth)]; [congruence |].
      exists wi, tok. split; [done |]. split; [by eapply Hplace | done].
    + by eapply race_ok_local.
  - rewrite (move_proc_AtGetConfigMap _ _ _ _ Hst).
    by eapply race_ok_local.
  - rewrite (move_proc_AtKey _ _ _ _ Hkey).
    by eapply race_ok_local.
  - (* [GetByKey]: what the store holds now *)
    destruct Hans as [Hmiss | (wi & tok & Hgw & Hhit)].
    + rewrite (move_proc_AtGetByKey_miss _ _ _ _ _ Hst Hmiss).
      by eapply race_ok_local.
    + rewrite (move_proc_AtGetByKey_hit _ _ _ _ _ _ Hst Hhit).
      eapply race_ok_local; [done .. | | done].
      exists wi. split; [done | by eapply Hplace].
  - (* the record of the store is adopted *)
    rewrite move_proc_AtAdopt.
    destruct Hplace as (wi & Hgw & Hne).
    destruct (cache_ok_setIds _ _ _ _ Hgw Hcache) as [Hcache' Hboth].
    eapply race_ok_local; [done .. | | done].
    by exists wi, tok.
  - (* [rand.Read] *)
    destruct (entropy (world (shared s)) (drawn (world (shared s))))
      as [src err] eqn:Hsrc.
    assert (err = None) as ->.
    { specialize (Hent (drawn (world (shared s)))). by rewrite Hsrc in Hent. }
    rewrite (move_proc_AtMakeUID _ _ _ src) by done.
    rewrite app_nil_r.
    eapply race_ok_moved; [done | done | by left | done | |].
    + split; [done |]. split; [done |]. simpl.
      destruct g as [[wi tok] |]; [| done].
      by rewrite length_insert.
    + exists (AtCreate (token_of src)).
      split; [done |]. split; [done |]. split; [exact Hplace | done].
  - (* [Create] *)
    destruct g as [[wi tok0] |].
    + destruct Hg as (Hcm & Hsucc & Hwi).
      assert (configmaps (world (shared s)) !! ingress_uid_key
              = Some (newConfigMap tok0)) as Hrec.
      { rewrite Hcm. apply lookup_insert_eq. }
      rewrite (move_proc_AtCreate_late _ _ _ _ _ Hrec).
      eapply race_ok_moved; [done | done | by left | | |].
      * intros j Hne. rewrite creates_by_app.
        unfold AlreadyExists_call. rewrite creates_by_other by done.
        by rewrite app_nil_r.
      * split; [done |]. split; [done |]. simpl. split; [done |].
        split; [| by rewrite length_insert].
        unfold succeeded. rewrite filter_app, filter_cons_False by done.
        by rewrite app_nil_r.
      * exists (Refused tok). split; [done |]. split; [done |]. split.
        { exists wi, tok0. split; [done | by eapply Hplace]. }
        rewrite creates_by_app, Hcalls. unfold AlreadyExists_call.
        by rewrite creates_by_own.
    + destruct Hg as (Hcm & Hnil).
      assert (configmaps (world (shared s)) !! ingress_uid_key = None)
        as Hrec by (by rewrite Hcm).
      rewrite (move_proc_AtCreate_first _ _ _ _ Hrec).
      eapply (race_ok_moved _ _ _ None (Some (i, tok)));
        [done | done | right; split; [done | by exists tok] | | |].
      * intros j Hne. rewrite creates_by_app.
        rewrite creates_by_other by done. by rewrite app_nil_r.
      * split; [done |]. split; [done |]. simpl.
        split; [by rewrite Hcm |]. split; [by rewrite Hnil |].
        rewrite length_insert. by eapply lookup_lt_Some.
      * exists (AtSetIds tok). split; [done |]. split.
        { eapply cache_ok_mono; [| done]. by right. }
        split; [done |].
        rewrite creates_by_app, Hcalls. by rewrite creates_by_own.
  - (* the winner adopts its own record *)
    rewrite move_proc_AtSetIds. simpl in Hplace.
    destruct (cache_ok_setIds _ _ _ _ Hplace Hcache) as [Hcache' Hboth].
    by eapply race_ok_local.
  - change (move_proc i (mkProc ci (code (Created tok))) (shared s))
      with (mkProc ci (code (Created tok)), shared s, @nil CreateCall).
    by eapply race_ok_local.
  - change (move_proc i (mkProc ci (code Adopted)) (shared s))
      with (mkProc ci (code Adopted), shared s, @nil CreateCall).
    by eapply race_ok_local.
  - change (move_proc i (mkProc ci (code (Refused tok))) (shared s))
      with (mkProc ci (code (Refused tok)), shared s, @nil CreateCall).
    by eapply race_ok_local.
Qed.

Lemma sync_ok w0 n s i : race_ok w0 n s → race_ok w0 n (sync i s).
Proof.
  intros (Hlen & g & Hserver & Hprocs). unfold sync.
  destruct (procs s !! i) as [p |] eqn:Hi; [| split; [done | by exists g]].
  destruct (configmaps (world (shared s)) !! ingress_uid_key) as [m |] eqn:Hm;
    [| split; [done | by exists g]].
  destruct (Hprocs i p Hi) as (pl & Hprog & Hcache & Hplace & Hcalls).
  pose proof Hserver as (Hent & Hw0 & Hg).
  destruct g as [[wi tok] |]; [| destruct Hg as [Hcm _]; congruence].
  destruct Hg as (Hcm & _).
  assert (m = newConfigMap tok) as ->.
  { rewrite Hcm, lookup_insert_eq in Hm. congruence. }
  eapply race_ok_moved; [done | done | by left | done | |].
  - eapply server_ok_same; [| | | done]; [done | done |].
    simpl. by rewrite length_insert.
  - exists pl. split; [done |]. split; [by eapply cache_ok_sync |].
    split; [| done]. by destruct pl.
Qed.

Lemma notify_ok w0 n s i : race_ok w0 n s → race_ok w0 n (notify i s).
Proof.
  intros (Hlen & g & Hserver & Hprocs). unfold notify.
  destruct (procs s !! i) as [p |] eqn:Hi; [| split; [done | by exists g]].
  destruct (Hprocs i p Hi) as (pl & Hprog & Hcache & Hplace & Hcalls).
  pose proof Hcache as (Hkey & (live & Hst & Hans) & Hids).
  rewrite Hst.
  destruct Hans as [-> | (wi & tok & Hgw & ->)];
    [split; [done | by exists g] |].
  subst g.
  change (AddFunc (ObjConfigMap (Some (newConfigMap tok))))
    with (setIds (newConfigMap tok)).
  rewrite run_setIds.
  destruct (cache_ok_setIds _ _ _ _ eq_refl Hcache) as [Hcache' Hboth].
  eapply race_ok_moved; [done | done | by left | done | |].
  - eapply server_ok_same; [| | | done]; [done | done |].
    simpl. by rewrite length_insert.
  - exists pl. split; [done |]. split; [done |]. split; [| done].
    destruct pl; simpl in *; try done.
    + destruct Hplace as [[= -> ->] _]. done.
    + destruct Hplace as (wi' & tok' & [= -> ->] & Hne & _).
      by exists wi', tok'.
Qed.

Lemma run_turns_ok w0 n ts s : race_ok w0 n s → race_ok w0 n (run_turns ts s).
Proof.
  revert s. induction ts as [| t ts IH]; intros s Hok; [done |].
  simpl. apply IH. destruct t; simpl.
  - by apply move_ok.
  - by apply sync_ok.
  - by apply notify_ok.
Qed.

Lemma initializing_ok w0 n :
  configmaps w0 !! ingress_uid_key = None → entropy_never_fails w0 →
  race_ok w0 n (initializing n (mkEnv w0 [])).
Proof.
  intros Hw0 Hent. split; [apply length_replicate |].
  exists None. split; [done |].
  intros i p [-> _]%lookup_replicate. exists AtStart.
  split; [done |]. split; [| done].
  split; [done |]. split; [| by left].
  exists empty_store. split; [done | by left].
Qed.

End Turns.

(** *** When all calls have returned *)

Section Outcome.
Implicit Types (ci : ClusterId) (env : Env Cluster) (i j : nat)
  (g : winner) (cs : list CreateCall).

(** A caller whose store holds the record, or whose handler has run, gets
    the record's token. *)
Lemma run_GetId_delivered ci env tok :
  both_ids ci tok ∨ no_ids ci →
  both_ids ci tok ∨ store_holds ci (newConfigMap tok) →
  (∃ st, store ci = Some st) →
  ∃ ci' env', run GetId ci env = Some ((tok, None), ci', env')
    ∧ both_ids ci' tok ∧ world env' = world env.
Proof.
  intros Hids Hdel [st0 Hst0].
  destruct Hids as [[Hc Hp] | [Hc Hp]].
  - exists ci, env. split; [by eapply run_GetId_cached | done].
  - destruct Hdel as [[Hc' _] | (st & Hst & Hhit)]; [congruence |].
    pose proof (run_getOrInitialize_hit ci env st _ Hst Hc Hhit) as Hinit.
    destruct (newConfigMap_ids tok ci) as (Hc' & Hp' & _).
    eexists _, _. split.
    { rewrite (run_GetId _ _ _ _ _ Hinit). unfold GetId_locked.
      rewrite Hc', Hp'.
      rewrite bool_decide_false by (intros Hne; by apply Hne).
      reflexivity. }
    done.
Qed.

(** A caller to whom nothing has been delivered tries to create the record
    and is refused. *)
Lemma run_GetId_refused ci env m :
  clusterId ci = None → store_holds_nothing ci →
  cfgMapKey ci = ingress_uid_key →
  configmaps (world env) !! ingress_uid_key = Some m →
  (entropy (world env) (drawn (world env))).2 = None →
  ∃ env', run GetId ci env
          = Some (("", Some AlreadyExists_ingress_uid), ci, env')
    ∧ configmaps (world env') = configmaps (world env).
Proof.
  intros Hc (st & Hst & Hmiss) Hkey Hm Hent.
  destruct env as [w tr]; simpl in Hm, Hent; simpl world.
  destruct (entropy w (drawn w)) as [src err] eqn:Hsrc; simpl in Hent; subst.
  assert (∃ env', run getOrInitialize ci (mkEnv w tr)
            = Some (Some AlreadyExists_ingress_uid, ci, env')
            ∧ configmaps (world env') = configmaps w) as (env' & Hinit & Hw).
  { unfold getOrInitialize, getConfigMap, makeUID, setIds; cbn.
    rewrite Hst; cbn. rewrite Hc; cbn. rewrite Hst; cbn. rewrite Hmiss; cbn.
    rewrite Hsrc; cbn. unfold cluster_Create; cbn.
    change (object_key UIDNamespace (Name (newConfigMap ?t)))
      with ingress_uid_key.
    rewrite Hm; cbn. eexists; split; reflexivity. }
  exists env'. by rewrite (run_GetId _ _ _ _ _ Hinit).
Qed.

Lemma finished_code ci pl r :
  finished (mkProc ci (code pl)) = Some r →
  match pl with
  | Created _ | Adopted => r = None
  | Refused _ => r = Some AlreadyExists_ingress_uid
  | _ => False
  end.
Proof.
  destruct pl; try (cbn; congruence).
  change (code (AtAdopt tok)) with (at_setIds tok). cbn; congruence.
Qed.

End Outcome.

(** C5 (as the code has it): [n] processes with empty caches and empty
    informer stores call [getOrInitialize] concurrently against an API
    server without the record, token generation succeeding, while their
    informers deliver whatever the server holds whenever they get to it.
    In every interleaving that lets all calls return, exactly one [Create]
    succeeds, the server holds the winner's record and the winner returns
    nil.  Every other caller either returns nil without a [Create] of its
    own, having adopted the winner's identity from its informer, or
    receives [AlreadyExists] from its single [Create] and returns it.  No
    cache holds another identity than the winner's.  Afterwards [GetId]
    returns the winner's identity to every caller whose informer has
    delivered the record, to its store or to its cache; to a caller whose
    informer has delivered nothing it returns [AlreadyExists] once more,
    leaving the record alone; and once the watch has delivered, every
    [GetId] returns the winner's identity. *)
Theorem one_creator_wins (n : nat) (ts : list Turn) (w0 : Cluster) :
  (0 < n)%nat → configmaps w0 !! ingress_uid_key = None →
  entropy_never_fails w0 →
  let s := run_turns ts (initializing n (mkEnv w0 [])) in
  all_finished s →
  ∃ wi tok,
    (wi < n)%nat ∧ length (procs s) = n
    ∧ configmaps (world (shared s))
      = <[ingress_uid_key := newConfigMap tok]> (configmaps w0)
    ∧ succeeded (creates s) = [mkCall wi (newConfigMap tok) None]
    ∧ ∀ i p, procs s !! i = Some p →
        let ci := p_cache p in
        (if decide (i = wi)
         then finished p = Some None
              ∧ creates_by i (creates s) = [mkCall wi (newConfigMap tok) None]
              ∧ both_ids ci tok
         else (finished p = Some None
               ∧ creates_by i (creates s) = []
               ∧ both_ids ci tok)
              ∨ (finished p = Some (Some AlreadyExists_ingress_uid)
                 ∧ ∃ tok', creates_by i (creates s)
                           = [AlreadyExists_call i tok']))
        ∧ (both_ids ci tok ∨ no_ids ci)
        ∧ (store_holds ci (newConfigMap tok) ∨ store_holds_nothing ci)
        ∧ (both_ids ci tok ∨ store_holds ci (newConfigMap tok) →
           ∃ ci' env',
             run GetId ci (shared s) = Some ((tok, None), ci', env')
             ∧ both_ids ci' tok ∧ world env' = world (shared s))
        ∧ (no_ids ci ∧ store_holds_nothing ci →
           ∃ env',
             run GetId ci (shared s)
             = Some (("", Some AlreadyExists_ingress_uid), ci, env')
             ∧ configmaps (world env') = configmaps (world (shared s)))
        ∧ run GetId (watch_delivery ci (shared s)) (shared s)
          = Some ((tok, None), watch_delivery ci (shared s), shared s).
Proof.
  intros Hn Hw0 Hent s Hfin.
  destruct (run_turns_ok w0 n ts _ (initializing_ok w0 n Hw0 Hent))
    as (Hlen & g & (Hent' & _ & Hg) & Hprocs).
  fold s in Hlen, Hent', Hg, Hprocs.
  assert (∀ i p, procs s !! i = Some p →
            ∃ pl r, p_prog p = code pl ∧ finished p = Some r
                    ∧ cache_ok g (p_cache p) ∧ place_ok g i pl (p_cache p)
                    ∧ creates_by i (creates s) = calls_at i pl
                    ∧ match pl with
                      | Created _ | Adopted => r = None
                      | Refused _ => r = Some AlreadyExists_ingress_uid
                      | _ => False
                      end) as Hdone.
  { intros i p Hi.
    destruct (Hprocs i p Hi) as (pl & Hprog & Hcache & Hplace & Hcalls).
    pose proof (Forall_lookup_1 _ _ _ _ Hfin Hi) as [r Hr].
    exists pl, r. repeat (split; [done |]).
    destruct p as [ci prog]; simpl in Hprog; subst prog.
    by apply (finished_code ci). }
  destruct g as [[wi tok] |]; cycle 1.
  { (* some caller must have created the record *)
    destruct (procs s) as [| p ps] eqn:Hps; [simpl in Hlen; lia |].
    destruct (Hdone 0%nat p eq_refl)
      as (pl & r & _ & _ & _ & Hplace & _ & Hr).
    destruct pl; simpl in Hplace, Hr; try done.
    - by destruct Hplace.
    - by destruct Hplace as (? & ? & ? & _).
    - by destruct Hplace as (? & ? & ? & _). }
  destruct Hg as (Hcm & Hsucc & Hwi).
  exists wi, tok.
  split; [by rewrite <- Hlen |]. split; [done |]. split; [done |].
  split; [done |].
  assert (configmaps (world (shared s)) !! ingress_uid_key
          = Some (newConfigMap tok)) as Hrecord.
  { rewrite Hcm. apply lookup_insert_eq. }
  intros i p Hi ci.
  destruct (Hdone i p Hi)
    as (pl & r & Hprog & Hr & Hcache & Hplace & Hcalls & Hpl).
  fold ci in Hcache, Hplace.
  destruct Hcache as (Hkey & (st & Hst & Hans) & Hids).
  assert (both_ids ci tok ∨ no_ids ci) as Hids'.
  { destruct Hids as [? | (? & ? & [= <- <-] & ?)]; auto. }
  assert (store_holds ci (newConfigMap tok) ∨ store_holds_nothing ci)
    as Hstore.
  { destruct Hans as [Hmiss | (? & ? & [= <- <-] & Hhit)].
    - right. exists st. by rewrite Hkey.
    - left. exists st. by rewrite Hkey. }
  split; [| split; [done |]; split; [done |]; split; [| split]].
  - destruct pl; simpl in Hplace, Hpl, Hcalls; try done; subst r.
    + destruct Hplace as [[= -> ->] Hboth].
      by rewrite decide_True by done.
    + destruct Hplace as (? & ? & [= <- <-] & Hne & Hboth).
      rewrite decide_False by done. by left.
    + destruct Hplace as (? & ? & [= <- <-] & Hne).
      rewrite decide_False by done. right. split; [done |]. by eexists.
  - intros Hdel. apply run_GetId_delivered; [done | done | by exists st].
  - intros [[Hc _] Hnothing].
    eapply run_GetId_refused; [done | done | done | done |]. apply Hent'.
  - edestruct (watch_delivery_ids ci (shared s)) as (Hc' & Hp' & Hs');
      [done | done |].
    by eapply run_GetId_cached.
Qed.

Lemma one_creator_wins_witness :
  let s := run_turns three_way_race (initializing 3 (mkEnv fresh_world [])) in
  ∃ wi tok,
    (wi < 3)%nat ∧ length (procs s) = 3%nat
    ∧ configmaps (world (shared s))
      = <[ingress_uid_key := newConfigMap tok]> (configmaps fresh_world)
    ∧ succeeded (creates s) = [mkCall wi (newConfigMap tok) None]
    ∧ ∀ i p, procs s !! i = Some p →
        let ci := p_cache p in
        (if decide (i = wi)
         then finished p = Some None
              ∧ creates_by i (creates s) = [mkCall wi (newConfigMap tok) None]
              ∧ both_ids ci tok
         else (finished p = Some None
               ∧ creates_by i (creates s) = []
               ∧ both_ids ci tok)
              ∨ (finished p = Some (Some AlreadyExists_ingress_uid)
                 ∧ ∃ tok', creates_by i (creates s)
                           = [AlreadyExists_call i tok']))
        ∧ (both_ids ci tok ∨ no_ids ci)
        ∧ (store_holds ci (newConfigMap tok) ∨ store_holds_nothing ci)
        ∧ (both_ids ci tok ∨ store_holds ci (newConfigMap tok) →
           ∃ ci' env',
             run GetId ci (shared s) = Some ((tok, None), ci', env')
             ∧ both_ids ci' tok ∧ world env' = world (shared s))
        ∧ (no_ids ci ∧ store_holds_nothing ci →
           ∃ env',
             run GetId ci (shared s)
             = Some (("", Some AlreadyExists_ingress_uid), ci, env')
             ∧ configmaps (world env') = configmaps (world (shared s)))
        ∧ run GetId (watch_delivery ci (shared s)) (shared s)
          = Some ((tok, None), watch_delivery ci (shared s), shared s).
Proof.
  apply (one_creator_wins 3 three_way_race fresh_world).
  - lia.
  - reflexivity.
  - intros k. reflexivity.
  - unfold all_finished.
    apply (bool_decide_unpack (Forall (λ p, is_Some (finished p)) _)).
    vm_compute. exact I.
Defined.

(** C5, refuted as stated, twice.  Two processes race and no informer
    delivers: both calls return, and the [GetId] calls that follow do not
    return the same identity, the loser getting [AlreadyExists] again.  Two
    processes race and the informer of the second delivers the record the
    first has created before the second reads its store: both calls return
    nil, and no caller has received [AlreadyExists]. *)
Lemma late_caller_gets_no_identity :
  (let s := run_turns two_way_race (initializing 2 fresh_cluster) in
   finished <$> procs s = [Some None; Some (Some AlreadyExists_ingress_uid)]
   ∧ (λ p, (λ r, r.1.1) <$> run GetId (p_cache p) (shared s)) <$> procs s
     = [Some ("0001020304050607", None);
        Some ("", Some AlreadyExists_ingress_uid)])
  ∧ (let s := run_turns race_with_delivery (initializing 2 fresh_cluster) in
     finished <$> procs s = [Some None; Some None]
     ∧ answer <$> creates s = [None]).
Proof. repeat split; vm_compute; reflexivity. Qed.

(** * More of the file *)

(** ** The handlers of the watch *)

Section Handlers.
Context {World : Type} `{!Environment World}.
Implicit Types (ci : ClusterId) (env : Env World) (m : ConfigMap).
Implicit Types (DeepEqual : object → object → bool).

Lemma is_ingress_uid_inj obj m m' :
  is_ingress_uid obj m → is_ingress_uid obj m' → m = m'.
Proof. intros [-> _] [[= ->] _]. done. Qed.

Lemma run_AddFunc obj ci env :
  ∃ ci', run (AddFunc obj) ci env = Some (tt, ci', env)
    ∧ ((∃ m, is_ingress_uid obj m ∧ ci' = setIds_locked m ci)
       ∨ ((∀ m, ¬ is_ingress_uid obj m) ∧ ci' = ci)).
Proof.
  unfold AddFunc, is_ingress_uid.
  destruct obj as [| [m |] | dyn]; simpl;
    try (exists ci; split; [done |]; right; split; [| done];
         intros m' [[=] _]; fail).
  destruct (decide (Namespace m = UIDNamespace)) as [Hns | Hns];
    destruct (decide (Name m = UIDConfigMapName)) as [Hnm | Hnm].
  - rewrite !bool_decide_false by (intros Hne; by apply Hne). simpl.
    eexists. split; [apply run_setIds |]. left. by exists m.
  - rewrite bool_decide_false by (intros Hne; by apply Hne).
    rewrite bool_decide_true by done. simpl.
    exists ci. split; [done |]. right. split; [| done].
    intros m' ([= <-] & _ & ?). done.
  - rewrite bool_decide_true by done. simpl.
    exists ci. split; [done |]. right. split; [| done].
    intros m' ([= <-] & ? & _). done.
  - rewrite bool_decide_true by done. simpl.
    exists ci. split; [done |]. right. split; [| done].
    intros m' ([= <-] & ? & _). done.
Qed.

Lemma run_UpdateFunc DeepEqual old cur ci env :
  ∃ ci', run (UpdateFunc DeepEqual old cur) ci env = Some (tt, ci', env)
    ∧ ((∃ m, is_ingress_uid cur m ∧ DeepEqual old cur = false
             ∧ ci' = setIds_locked m ci)
       ∨ (((∀ m, ¬ is_ingress_uid cur m) ∨ DeepEqual old cur = true)
          ∧ ci' = ci)).
Proof.
  unfold UpdateFunc, is_ingress_uid.
  destruct cur as [| [m |] | dyn]; simpl;
    try (exists ci; split; [done |]; right; split; [| done];
         left; intros m' [[=] _]; fail).
  destruct (decide (Namespace m = UIDNamespace)) as [Hns | Hns];
    destruct (decide (Name m = UIDConfigMapName)) as [Hnm | Hnm].
  - rewrite !bool_decide_false by (intros Hne; by apply Hne). simpl.
    destruct (DeepEqual old (ObjConfigMap (Some m))) eqn:Heq.
    + exists ci. split; [done |]. right. split; [by right | done].
    + eexists. split; [apply run_setIds |]. left. by exists m.
  - rewrite bool_decide_false by (intros Hne; by apply Hne).
    rewrite bool_decide_true by done. simpl.
    exists ci. split; [done |]. right. split; [| done].
    left. intros m' ([= <-] & _ & ?). done.
  - rewrite bool_decide_true by done. simpl.
    exists ci. split; [done |]. right. split; [| done].
    left. intros m' ([= <-] & ? & _). done.
  - rewrite bool_decide_true by done. simpl.
    exists ci. split; [done |]. right. split; [| done].
    left. intros m' ([= <-] & ? & _). done.
Qed.

(** After an event the cache is what it was, or what [setIds] makes of it
    with the record of the event. *)
Lemma run_handle_event DeepEqual ev ci env :
  ∃ ci', run (handle_event DeepEqual ev) ci env = Some (tt, ci', env)
    ∧ (ci' = ci ∨ ∃ m, ci' = setIds_locked m ci).
Proof.
  destruct ev as [obj | old cur]; simpl.
  - destruct (run_AddFunc obj ci env) as (ci' & Hrun & [(m & _ & ->) | [_ ->]]);
      eauto.
  - destruct (run_UpdateFunc DeepEqual old cur ci env)
      as (ci' & Hrun & [(m & _ & _ & ->) | [_ ->]]); eauto.
Qed.

(** X1: [AddFunc] changes the cache for one kind of object only, a non-nil
    config map named [kube-system/ingress-uid], to which it applies
    [setIds]; any other object (a nil pointer, another type, another name or
    namespace) leaves the cache as it was.  It never reads or writes
    anything outside the cache. *)
Theorem AddFunc_filters obj ci env :
  ∃ ci', run (AddFunc obj) ci env = Some (tt, ci', env)
    ∧ ((∃ m, is_ingress_uid obj m
             ∧ run (setIds m) ci env = Some (tt, ci', env))
       ∨ ((∀ m, ¬ is_ingress_uid obj m) ∧ ci' = ci)).
Proof.
  destruct (run_AddFunc obj ci env) as (ci' & Hrun & Hcases).
  exists ci'. split; [done |].
  destruct Hcases as [(m & Hm & ->) | ?]; [left | by right].
  exists m. by rewrite run_setIds.
Qed.

(** X2: [UpdateFunc] leaves the cache as it was when the new object is not
    the config map [kube-system/ingress-uid] or when [DeepEqual] finds the
    old and the new object equal; otherwise it does to the cache what
    [AddFunc] does with the new object.  After [AddFunc] on an object,
    [UpdateFunc] to that object changes nothing any more, whatever
    [DeepEqual] answers. *)
Theorem UpdateFunc_skips_equal DeepEqual old cur ci env :
  ∃ ci', run (UpdateFunc DeepEqual old cur) ci env = Some (tt, ci', env)
    ∧ (DeepEqual old cur = true → ci' = ci)
    ∧ (DeepEqual old cur = false →
         run (AddFunc cur) ci env = Some (tt, ci', env))
    ∧ run (AddFunc cur ;; UpdateFunc DeepEqual old cur) ci env
      = run (AddFunc cur) ci env.
Proof.
  destruct (run_UpdateFunc DeepEqual old cur ci env)
    as (ci' & Hrun & Hcases).
  destruct (run_AddFunc cur ci env) as (ci1 & Hadd & Hadd_cases).
  exists ci'. split; [done |]. split; [| split].
  - intros Heq. destruct Hcases as [(m & _ & Hne & _) | [_ ->]]; [| done].
    congruence.
  - intros Hne. rewrite Hadd. do 2 f_equal.
    destruct Hcases as [(m & Hm & _ & ->) | [[Hno | Heq] ->]];
      destruct Hadd_cases as [(m' & Hm' & ->) | [Hno' ->]];
      try done; try congruence;
      try (by rewrite (is_ingress_uid_inj _ _ _ Hm Hm'));
      try (by destruct (Hno' m)); try (by destruct (Hno m')).
  - rewrite run_bind, Hadd.
    destruct (run_UpdateFunc DeepEqual old cur ci1 env)
      as (ci2 & -> & Hcases2). do 2 f_equal.
    destruct Hcases2 as [(m & Hm & _ & ->) | [_ ->]]; [| done].
    destruct Hadd_cases as [(m' & Hm' & ->) | [Hno' ->]].
    + rewrite (is_ingress_uid_inj _ _ _ Hm Hm').
      by rewrite setIds_locked_idempotent.
    + by destruct (Hno' m).
Qed.

(** X3: no sequence of watch events, whatever the objects, makes a cached
    identity absent again, takes the store away from the cache or changes
    its key; and handling events performs no input or output. *)
Theorem watch_never_forgets DeepEqual evs ci env :
  ∃ ci', run (handle_events DeepEqual evs) ci env = Some (tt, ci', env)
    ∧ store ci' = store ci ∧ cfgMapKey ci' = cfgMapKey ci
    ∧ (is_Some (clusterId ci) → is_Some (clusterId ci'))
    ∧ (is_Some (providerId ci) → is_Some (providerId ci')).
Proof.
  revert ci. induction evs as [| ev evs IH]; intros ci; simpl.
  { exists ci. done. }
  rewrite run_bind.
  destruct (run_handle_event DeepEqual ev ci env) as (ci1 & -> & Hci1).
  destruct (IH ci1) as (ci' & Hrun & Hst & Hkey & Hc & Hp).
  exists ci'. split; [done |].
  assert (store ci1 = store ci ∧ cfgMapKey ci1 = cfgMapKey ci
          ∧ (is_Some (clusterId ci) → is_Some (clusterId ci1))
          ∧ (is_Some (providerId ci) → is_Some (providerId ci1)))
    as (Hst1 & Hkey1 & Hc1 & Hp1).
  { destruct Hci1 as [-> | [m ->]]; [done |].
    rewrite setIds_locked_clusterId, setIds_locked_providerId.
    destruct (setIds_locked_store m ci) as [-> ->].
    repeat split; intros; case_match; eauto. }
  rewrite Hst, Hkey, Hst1, Hkey1. repeat split; auto.
Qed.

Lemma setIds_locked_merge m1 m2 ci :
  setIds_locked m2 (setIds_locked m1 ci)
  = setIds_locked (merge_records m1 m2) ci.
Proof.
  unfold setIds_locked, merge_records; simpl. rewrite !lookup_union.
  destruct (Data m1 !! UIDCluster), (Data m2 !! UIDCluster),
    (Data m1 !! UIDProvider), (Data m2 !! UIDProvider); by destruct ci.
Qed.

(** X4: applying two records one after the other is applying the one
    record that holds the fields of both, the later record's where both
    have a field: per field, the last writer wins. *)
Theorem setIds_last_writer_wins m1 m2 ci env :
  run (setIds m1 ;; setIds m2) ci env
  = run (setIds (merge_records m1 m2)) ci env.
Proof. by rewrite run_bind, !run_setIds, setIds_locked_merge. Qed.

End Handlers.

(** ** The readers and the lazy initialisation, path by path *)

Section Paths.
Context {World : Type} `{!Environment World}.
Implicit Types (ci : ClusterId) (env : Env World) (m : ConfigMap).

(** [getConfigMap] in one table. *)
Lemma run_getConfigMap ci env st :
  store ci = Some st →
  run getConfigMap ci env
  = let env' := mkEnv (world env) (trace env ++ [IOGetByKey (cfgMapKey ci)]) in
    match st (cfgMapKey ci) with
    | (_, _, Some e) => Some ((false, Some e), ci, env')
    | (_, false, None) => Some ((false, None), ci, env')
    | (ObjConfigMap (Some m), true, None) =>
        Some ((true, None), setIds_locked m ci, env')
    | (item, true, None) =>
        Some ((false, Some (Errorf_ExpectedConfigMap item
                              (as_ConfigMap item).2)), ci, env')
    end.
Proof.
  intros Hst. unfold getConfigMap, setIds. cbn. rewrite Hst. cbn.
  destruct (st (cfgMapKey ci)) as [[item ex] err]. cbn.
  destruct err, ex; destruct item as [| [m |] | dyn]; reflexivity.
Qed.

(** X5: [getConfigMap] panics exactly when the store is not set.  When it
    returns, it has read the store once and nothing else; it answers
    [true] only without an error and only after [setIds] on the non-nil
    config map found under the key; whenever it answers [false] the cache
    is what it was. *)
Theorem getConfigMap_outcomes ci env :
  (run getConfigMap ci env = None ↔ store ci = None)
  ∧ ∀ found err ci' env',
      run getConfigMap ci env = Some ((found, err), ci', env') →
      world env' = world env
      ∧ trace env' = (trace env ++ [IOGetByKey (cfgMapKey ci)])%list
      ∧ (found = true →
           err = None
           ∧ ∃ st m, store ci = Some st
               ∧ st (cfgMapKey ci) = (ObjConfigMap (Some m), true, None)
               ∧ ci' = setIds_locked m ci)
      ∧ (found = false → ci' = ci).
Proof.
  destruct (store ci) as [st |] eqn:Hst.
  2:{ assert (run getConfigMap ci env = None) as Hpanic.
      { unfold getConfigMap. cbn. by rewrite Hst. }
      split; [by split |]. intros ? ? ? ?. by rewrite Hpanic. }
  rewrite (run_getConfigMap _ _ _ Hst).
  destruct (st (cfgMapKey ci)) as [[item ex] err] eqn:Hget. cbn zeta.
  split.
  { split; [| done]. by destruct item as [| [m |] | dyn], ex, err. }
  intros found err' ci' env' Hrun.
  destruct item as [| [m |] | dyn], ex, err as [e |];
    injection Hrun as <- <- <- <-; repeat split; try done.
  by exists st, m.
Qed.

Lemma getOrInitialize_frame ci env err ci' env' :
  run getOrInitialize ci env = Some (err, ci', env') →
  store ci' = store ci ∧ cfgMapKey ci' = cfgMapKey ci.
Proof.
  unfold getOrInitialize, getConfigMap, makeUID, setIds. cbn.
  intros Hrun.
  assert (ci' = ci ∨ ∃ m, ci' = setIds_locked m ci) as [-> | [m ->]];
    [| done | apply setIds_locked_store].
  run_cases; eauto.
Qed.

Lemma getOrInitialize_cached ci env st cid :
  store ci = Some st → clusterId ci = Some cid →
  run getOrInitialize ci env = Some (None, ci, env).
Proof.
  intros Hst Hcid. unfold getOrInitialize. cbn. rewrite Hst. cbn.
  by rewrite Hcid.
Qed.

Lemma getOrInitialize_success_ready ci env ci' env' :
  run getOrInitialize ci env = Some (None, ci', env') → is_Some (store ci).
Proof.
  unfold getOrInitialize. cbn. destruct (store ci); [eauto | done].
Qed.

(** X6: [GetId] and [GetFederationId] never panic: for every cache and
    every behaviour of the store, of the entropy source and of the API
    server they return; and they leave the store and the key of the cache
    as they were, so that a cache that is ready stays ready. *)
Theorem readers_always_return ci env :
  (∃ r ci' env', run GetId ci env = Some (r, ci', env')
     ∧ store ci' = store ci ∧ cfgMapKey ci' = cfgMapKey ci)
  ∧ (∃ r ci' env', run GetFederationId ci env = Some (r, ci', env')
       ∧ store ci' = store ci ∧ cfgMapKey ci' = cfgMapKey ci).
Proof.
  destruct (getOrInitialize_returns ci env) as (err & ci' & env' & Hinit).
  destruct (getOrInitialize_frame _ _ _ _ _ Hinit) as [Hst Hkey].
  rewrite (run_GetId _ _ _ _ _ Hinit), (run_GetFederationId _ _ _ _ _ Hinit).
  split; repeat eexists; done.
Qed.

(** X7: once [clusterId] is cached, [GetId] and [GetFederationId] answer
    from the cache alone: no read of the store, no entropy, no [Create];
    cache and world are what they were.  The two answers agree:
    [GetFederationId] says [true] exactly when [GetId] returns something
    other than [clusterId], and what [GetId] returns then is
    [providerId]. *)
Theorem cached_reads_are_local ci env st cid :
  store ci = Some st → clusterId ci = Some cid →
  ∃ (id : string) (fed : bool),
    run GetId ci env = Some ((id, None), ci, env)
    ∧ run GetFederationId ci env
      = Some ((if fed then cid else "", fed, None), ci, env)
    ∧ (fed = true ↔ id ≠ cid)
    ∧ (fed = true → providerId ci = Some id)
    ∧ (fed = false → id = cid).
Proof.
  intros Hst Hcid.
  pose proof (getOrInitialize_cached ci env st cid Hst Hcid) as Hinit.
  rewrite (run_GetId _ _ _ _ _ Hinit), (run_GetFederationId _ _ _ _ _ Hinit).
  unfold GetId_locked, GetFederationId_locked. rewrite Hcid.
  destruct (providerId ci) as [pid |].
  - destruct (decide (pid = cid)) as [-> | Hne].
    + exists cid, false.
      rewrite bool_decide_false by (intros Hne; by apply Hne).
      rewrite bool_decide_true by done. naive_solver.
    + exists pid, true.
      rewrite bool_decide_true by done.
      rewrite bool_decide_false by congruence. naive_solver.
  - exists cid, false. naive_solver.
Qed.

(** X8: when the store already holds the config map and the cache holds no
    [clusterId] yet, [getOrInitialize] adopts the stored record and
    succeeds after a single read of the store: it asks for no entropy and
    creates nothing. *)
Theorem stored_record_is_adopted ci env st m :
  store ci = Some st → clusterId ci = None →
  st (cfgMapKey ci) = (ObjConfigMap (Some m), true, None) →
  run getOrInitialize ci env
  = Some (None, setIds_locked m ci,
          mkEnv (world env) (trace env ++ [IOGetByKey (cfgMapKey ci)]))
  ∧ ∃ ci', run (setIds m) ci env = Some (tt, ci', env)
      ∧ run GetId ci env
        = Some (GetId_locked ci', ci',
                mkEnv (world env) (trace env ++ [IOGetByKey (cfgMapKey ci)])).
Proof.
  intros Hst Hcid Hget.
  pose proof (run_getOrInitialize_hit ci env st m Hst Hcid Hget) as Hinit.
  split; [done |]. eexists. split; [apply run_setIds |].
  by rewrite (run_GetId _ _ _ _ _ Hinit).
Qed.

(** X9: the record one process creates is the record another process
    finds: a process whose informer store has received the created record,
    but whose handler has not run yet, returns the creator's token from
    [GetId] after a single read of its store under
    [kube-system/ingress-uid], and creates nothing. *)
Theorem created_record_is_found (tok : string) (st : Store) env :
  let ci := watchingClusterId (store_add (newConfigMap tok) st) in
  ∃ ci', run GetId ci env
         = Some ((tok, None), ci',
                 mkEnv (world env)
                   (trace env ++ [IOGetByKey "kube-system/ingress-uid"]))
    ∧ clusterId ci' = Some tok ∧ providerId ci' = Some tok.
Proof.
  intros ci.
  assert (run getOrInitialize ci env
          = Some (None, setIds_locked (newConfigMap tok) ci,
                  mkEnv (world env)
                    (trace env ++ [IOGetByKey "kube-system/ingress-uid"])))
    as Hinit.
  { apply (run_getOrInitialize_hit ci env
             (store_add (newConfigMap tok) st)); reflexivity. }
  assert (clusterId (setIds_locked (newConfigMap tok) ci) = Some tok
          ∧ providerId (setIds_locked (newConfigMap tok) ci) = Some tok)
    as [Hc Hp].
  { rewrite setIds_locked_clusterId, setIds_locked_providerId.
    unfold newConfigMap; simpl.
    by rewrite lookup_insert_eq, lookup_insert_ne, lookup_insert_eq. }
  eexists. rewrite (run_GetId _ _ _ _ _ Hinit). unfold GetId_locked.
  rewrite Hc, Hp. by rewrite bool_decide_false by (intros Hne; by apply Hne).
Qed.

(** X10: a stored config map without the [uid] field is never repaired:
    [GetId] fails with "Could not retrieve cluster id", asks for no entropy
    and creates nothing, and [clusterId] is still absent afterwards, so
    that the next call does the same. *)
Theorem record_without_uid_is_not_repaired ci env st m :
  store ci = Some st → clusterId ci = None →
  st (cfgMapKey ci) = (ObjConfigMap (Some m), true, None) →
  Data m !! UIDCluster = None →
  ∃ ci' env',
    run GetId ci env = Some (("", Some ErrNoClusterId), ci', env')
    ∧ clusterId ci' = None
    ∧ world env' = world env
    ∧ trace env' = (trace env ++ [IOGetByKey (cfgMapKey ci)])%list
    ∧ ∃ env'', run GetId ci' env'
               = Some (("", Some ErrNoClusterId), ci', env'')
        ∧ world env'' = world env.
Proof.
  intros Hst Hcid Hget Hnone.
  assert (∀ ci0 env0, store ci0 = Some st → clusterId ci0 = None →
            cfgMapKey ci0 = cfgMapKey ci →
            run GetId ci0 env0
            = Some (("", Some ErrNoClusterId), setIds_locked m ci0,
                    mkEnv (world env0)
                      (trace env0 ++ [IOGetByKey (cfgMapKey ci)]))
            ∧ clusterId (setIds_locked m ci0) = None) as Hcall.
  { intros ci0 env0 Hst0 Hcid0 Hkey0.
    assert (run getOrInitialize ci0 env0
            = Some (None, setIds_locked m ci0,
                    mkEnv (world env0)
                      (trace env0 ++ [IOGetByKey (cfgMapKey ci)])))
      as Hinit.
    { rewrite <- Hkey0. apply (run_getOrInitialize_hit _ _ st); [done .. |].
      by rewrite Hkey0. }
    assert (clusterId (setIds_locked m ci0) = None) as Hstill.
    { by rewrite setIds_locked_clusterId, Hnone. }
    rewrite (run_GetId _ _ _ _ _ Hinit). unfold GetId_locked.
    by rewrite Hstill. }
  destruct (Hcall ci env Hst Hcid eq_refl) as [Hrun Hstill].
  do 2 eexists. split; [exact Hrun |]. split; [done |].
  split; [done |]. split; [done |].
  destruct (setIds_locked_store m ci) as [Hst' Hkey'].
  destruct (Hcall (setIds_locked m ci)
              (mkEnv (world env) (trace env ++ [IOGetByKey (cfgMapKey ci)])))
    as [Hrun2 _]; [by rewrite Hst' | done | done |].
  rewrite setIds_locked_idempotent in Hrun2.
  eexists. split; [exact Hrun2 | done].
Qed.

(** X11: the first creation.  When the store has no record, the entropy
    source answers and [Create] succeeds, [GetId] returns the new token of
    sixteen characters; the cache holds it as [clusterId] and as
    [providerId]; and [GetFederationId] then says that the cluster is not
    federated. *)
Theorem first_creation ci env st item src w1 w2 :
  store ci = Some st → clusterId ci = None →
  st (cfgMapKey ci) = (item, false, None) →
  entropy_read UIDLengthBytes (world env) = (src, None, w1) →
  client_Create UIDNamespace (newConfigMap (token_of src)) w1 = (None, w2) →
  ∃ ci' env',
    run GetId ci env = Some ((token_of src, None), ci', env')
    ∧ String.length (token_of src) = 16
    ∧ clusterId ci' = Some (token_of src)
    ∧ providerId ci' = Some (token_of src)
    ∧ world env' = w2
    ∧ run GetFederationId ci' env' = Some (("", false, None), ci', env').
Proof.
  intros Hst Hcid Hget Hrand Hcreate.
  set (tok := token_of src).
  assert (∃ env', world env' = w2
            ∧ run getOrInitialize ci env
              = Some (None, setIds_locked (newConfigMap tok) ci, env'))
    as (env' & Hw & Hinit).
  { unfold getOrInitialize, getConfigMap, makeUID, setIds. cbn.
    rewrite Hst; cbn. rewrite Hcid; cbn. rewrite Hst; cbn.
    rewrite Hget; cbn.
    unfold tok, token_of, UIDLengthBytes in *. cbn in Hcreate.
    rewrite Hrand; cbn. rewrite Hcreate; cbn.
    eexists; split; [| reflexivity]. reflexivity. }
  assert (clusterId (setIds_locked (newConfigMap tok) ci) = Some tok
          ∧ providerId (setIds_locked (newConfigMap tok) ci) = Some tok)
    as [Hc Hp].
  { rewrite setIds_locked_clusterId, setIds_locked_providerId.
    unfold newConfigMap; simpl.
    by rewrite lookup_insert_eq, lookup_insert_ne, lookup_insert_eq. }
  exists (setIds_locked (newConfigMap tok) ci), env'.
  rewrite (run_GetId _ _ _ _ _ Hinit). unfold GetId_locked.
  rewrite Hc, Hp. rewrite bool_decide_false by (intros Hne; by apply Hne).
  split; [done |]. split; [apply token_of_length |].
  split; [done |]. split; [done |]. split; [done |].
  destruct (setIds_locked_store (newConfigMap tok) ci) as [Hst' _].
  assert (run getOrInitialize (setIds_locked (newConfigMap tok) ci) env'
          = Some (None, setIds_locked (newConfigMap tok) ci, env')) as Hinit2.
  { eapply getOrInitialize_cached; [by rewrite Hst' | done]. }
  rewrite (run_GetFederationId _ _ _ _ _ Hinit2).
  unfold GetFederationId_locked. rewrite Hc, Hp.
  by rewrite bool_decide_true.
Qed.

(** X12: an identity that [GetId] has returned is returned again by the
    next [GetId], which answers from the cache: no input or output, cache
    and world as they were. *)
Theorem GetId_is_stable ci env id ci' env' :
  run GetId ci env = Some ((id, None), ci', env') →
  run GetId ci' env' = Some ((id, None), ci', env').
Proof.
  intros Hrun.
  destruct (getOrInitialize_returns ci env) as (err & ci1 & env1 & Hinit).
  rewrite (run_GetId _ _ _ _ _ Hinit) in Hrun.
  destruct err as [e |]; [done |].
  injection Hrun as Hlocked <- <-.
  destruct (getOrInitialize_success_ready _ _ _ _ Hinit) as [st Hst].
  destruct (getOrInitialize_frame _ _ _ _ _ Hinit) as [Hst1 _].
  destruct (clusterId ci1) as [cid |] eqn:Hcid.
  2:{ unfold GetId_locked in Hlocked. by rewrite Hcid in Hlocked. }
  assert (run getOrInitialize ci1 env1 = Some (None, ci1, env1)) as Hinit2.
  { eapply getOrInitialize_cached; [by rewrite Hst1 | done]. }
  by rewrite (run_GetId _ _ _ _ _ Hinit2), Hlocked.
Qed.

Lemma getOrInitialize_budget ci env err ci' env' :
  run getOrInitialize ci env = Some (err, ci', env') →
  ∃ evs, trace env' = (trace env ++ evs)%list ∧ io_explained ci env env' evs.
Proof.
  unfold getOrInitialize, getConfigMap, makeUID, setIds. cbn.
  destruct (store ci) as [st |] eqn:Hst; cbn.
  2:{ intros [= <- <- <-]. exists []. rewrite app_nil_r.
      split; [done |]. left. auto. }
  destruct (clusterId ci) as [cid |] eqn:Hcid; cbn.
  { intros [= <- <- <-]. exists []. rewrite app_nil_r.
    split; [done |]. left. rewrite Hcid. eauto. }
  rewrite Hst; cbn.
  destruct (st (cfgMapKey ci)) as [[item ex] gerr] eqn:Hget; cbn.
  assert (∀ evs env1, 
            (evs = [IOGetByKey (cfgMapKey ci)] ∧ world env1 = world env
             ∧ (is_Some gerr ∨ ex = true))
            ∨ (gerr = None ∧ ex = false
               ∧ ∃ src rerr w1,
                   entropy_read UIDLengthBytes (world env) = (src, rerr, w1)
                   ∧ ((is_Some rerr
                       ∧ evs = [IOGetByKey (cfgMapKey ci);
                                IORandRead UIDLengthBytes]
                       ∧ world env1 = w1)
                      ∨ (rerr = None
                         ∧ ∃ cerr w2,
                             client_Create UIDNamespace
                               (newConfigMap (token_of src)) w1 = (cerr, w2)
                             ∧ evs = [IOGetByKey (cfgMapKey ci);
                                      IORandRead UIDLengthBytes;
                                      IOCreate UIDNamespace
                                        (newConfigMap (token_of src))]
                             ∧ world env1 = w2))) →
            io_explained ci env env1 evs) as Hexplained.
  { intros evs env1 Hcases. right. exists st, item, ex, gerr. auto. }
  destruct gerr as [e |]; cbn.
  { intros [= <- <- <-]. eexists. split; [done |].
    apply Hexplained. left. eauto. }
  destruct ex; cbn.
  { destruct item as [| [m |] | dyn]; cbn;
      intros [= <- <- <-]; (eexists; split; [done |]);
      apply Hexplained; left; auto. }
  destruct (entropy_read 8 (world env)) as [[src rerr] w] eqn:Hrand; cbn.
  destruct rerr as [e |]; cbn.
  { intros [= <- <- <-].
    exists [IOGetByKey (cfgMapKey ci); IORandRead UIDLengthBytes].
    split; [by rewrite <- app_assoc |].
    apply Hexplained. right. repeat split; [done .. |].
    exists src, (Some e), w. split; [done |]. left. eauto. }
  destruct (client_Create UIDNamespace _ w) as [cerr w'] eqn:Hcreate; cbn.
  assert (∀ env1, world env1 = w' →
            io_explained ci env env1
              [IOGetByKey (cfgMapKey ci); IORandRead UIDLengthBytes;
               IOCreate UIDNamespace (newConfigMap (token_of src))])
    as Hcreated.
  { intros env1 Hw. apply Hexplained. right. repeat split; [done .. |].
    exists src, None, w. split; [done |]. right. split; [done |].
    by exists cerr, w'. }
  destruct cerr as [e |]; cbn; intros [= <- <- <-];
    (eexists; split; [| by apply Hcreated]); by rewrite <- !app_assoc.
Qed.

(** X13: the input and output of one call of [GetId] or
    [GetFederationId], with its reasons.  Nothing when the store is not set
    or [clusterId] is cached; else one read of the store under the key of
    the cache; a request for eight bytes only after the store has answered
    "not there" without an error; one [Create] in [kube-system] only after
    that request has succeeded, and of the record whose two fields are the
    token of the bytes drawn.  No call creates twice, none creates after a
    store hit or a store error, and the world is as the last of these
    calls left it. *)
Theorem io_within_budget ci env :
  (∃ r ci' env' evs,
     run GetId ci env = Some (r, ci', env')
     ∧ trace env' = (trace env ++ evs)%list ∧ io_explained ci env env' evs)
  ∧ (∃ r ci' env' evs,
       run GetFederationId ci env = Some (r, ci', env')
       ∧ trace env' = (trace env ++ evs)%list
       ∧ io_explained ci env env' evs).
Proof.
  destruct (getOrInitialize_returns ci env) as (err & ci' & env' & Hinit).
  destruct (getOrInitialize_budget _ _ _ _ _ Hinit) as (evs & Htrace & Hevs).
  rewrite (run_GetId _ _ _ _ _ Hinit), (run_GetFederationId _ _ _ _ _ Hinit).
  split; repeat eexists; done.
Qed.

End Paths.

(** ** Tokens *)

Lemma EncodeToString_cons (v : byte) (rest : list byte) :
  EncodeToString (v :: rest)
  = String (hex_digit (N.shiftr (Byte.to_N v) 4))
      (String (hex_digit (N.land (Byte.to_N v) 15)) (EncodeToString rest)).
Proof. reflexivity. Qed.

(** Both digits of a byte are lowercase hexadecimal digits, and they spell
    the byte. *)
Lemma hex_digits_of_byte (v : byte) :
  lower_hex (hex_digit (N.shiftr (Byte.to_N v) 4))
  ∧ lower_hex (hex_digit (N.land (Byte.to_N v) 15))
  ∧ fromHexPair (hex_digit (N.shiftr (Byte.to_N v) 4))
                (hex_digit (N.land (Byte.to_N v) 15)) = Some v.
Proof.
  unfold lower_hex.
  destruct v;
    (split; [| split];
     [apply (bool_decide_unpack _); vm_compute; exact I
     | apply (bool_decide_unpack _); vm_compute; exact I
     | vm_compute; reflexivity]).
Qed.

Lemma EncodeToString_lower_hex (src : list byte) :
  Forall lower_hex (String.list_ascii_of_string (EncodeToString src)).
Proof.
  induction src as [| v rest IH]; [constructor |].
  rewrite EncodeToString_cons. simpl.
  destruct (hex_digits_of_byte v) as (Hhi & Hlo & _).
  constructor; [exact Hhi |]. constructor; [exact Hlo |]. exact IH.
Qed.

Lemma EncodeToString_inj (s1 s2 : list byte) :
  EncodeToString s1 = EncodeToString s2 → s1 = s2.
Proof.
  revert s2. induction s1 as [| v1 r1 IH]; intros [| v2 r2];
    rewrite ?EncodeToString_cons; try done.
  intros [= Hhi Hlo Hrest]. f_equal; [| by apply IH].
  destruct (hex_digits_of_byte v1) as (_ & _ & H1).
  destruct (hex_digits_of_byte v2) as (_ & _ & H2).
  rewrite Hhi, Hlo in H1. congruence.
Qed.

Lemma copy_into_full (b src : list byte) :
  length src = length b → copy_into b src = src.
Proof.
  intros Hlen. unfold copy_into.
  rewrite Hlen, drop_all, app_nil_r. apply take_ge. lia.
Qed.

Section Tokens.
Context {World : Type} `{!Environment World}.
Implicit Types (ci : ClusterId) (env : Env World).

(** X14: [makeUID] asks the entropy source once, for eight bytes, and does
    nothing else.  It returns either the error of the source together with
    an empty string, or no error together with a string of exactly sixteen
    lowercase hexadecimal digits, however many bytes the source wrote. *)
Theorem makeUID_shape ci env :
  ∃ tok err env',
    run makeUID ci env = Some ((tok, err), ci, env')
    ∧ trace env' = (trace env ++ [IORandRead UIDLengthBytes])%list
    ∧ ((err ≠ None ∧ tok = "")
       ∨ (err = None ∧ String.length tok = 16
          ∧ Forall lower_hex (String.list_ascii_of_string tok)
          ∧ ∃ src w, entropy_read UIDLengthBytes (world env) = (src, None, w)
                     ∧ tok = token_of src ∧ world env' = w)).
Proof.
  unfold makeUID. cbn.
  destruct (entropy_read 8 (world env)) as [[src err] w] eqn:Hrand.
  destruct err as [e |]; cbn.
  - do 3 eexists. split; [done |]. split; [done |]. by left.
  - do 3 eexists. split; [done |]. split; [done |]. right.
    split; [done |]. split; [apply (token_of_length src) |].
    split; [apply EncodeToString_lower_hex |]. by exists src, w.
Qed.

End Tokens.

(** X15: tokens tell buffers apart: two tokens made of eight bytes each
    are equal only if the bytes are. *)
Theorem token_of_inj (s1 s2 : list byte) :
  length s1 = UIDLengthBytes → length s2 = UIDLengthBytes →
  token_of s1 = token_of s2 → s1 = s2.
Proof.
  intros H1 H2 Heq. unfold token_of in Heq.
  apply EncodeToString_inj in Heq.
  rewrite !copy_into_full in Heq by (by rewrite length_replicate).
  done.
Qed.


(** ** The single-object lister and watcher *)

Section SingleObject.
Context {Rest World Listed Watched : Type}.
Implicit Types (base : ListerWatcher Rest World Listed Watched).
Implicit Types (options : ListOptions Rest).

(** X16: the wrapped lister and watcher is always asked with the field
    selector [metadata.name=<objectName>], whatever selector the caller
    wrote, and with the caller's other options unchanged: two calls that
    differ in the caller's selector only are the same call.  Wrapping a
    wrapper does not widen the selection: the selector of the inner wrapper
    is the one in force. *)
Theorem selector_is_fixed base (name outer : string) options options' :
  otherOptions options = otherOptions options' →
  let sow := newSingleObjectListerWatcher base name in
  let asked := {| FieldSelector := "metadata.name=" +:+ name;
                  otherOptions := otherOptions options |} in
  sow_List sow options = lw_List base asked
  ∧ sow_Watch sow options = lw_Watch base asked
  ∧ sow_List sow options = sow_List sow options'
  ∧ sow_Watch sow options = sow_Watch sow options'
  ∧ sow_List (newSingleObjectListerWatcher (sow_ListerWatcher sow) outer)
      options = sow_List sow options
  ∧ sow_Watch (newSingleObjectListerWatcher (sow_ListerWatcher sow) outer)
      options = sow_Watch sow options.
Proof.
  intros Hrest sow asked.
  unfold asked, sow_List, sow_Watch, select_name; simpl.
  rewrite Hrest. repeat split; reflexivity.
Qed.

End SingleObject.

(** ** What the cluster sees *)

(** X17: against an API server that creates only what is absent, [GetId]
    never changes and never removes a config map that exists: the only
    change it can make to the cluster is to add [kube-system/ingress-uid]
    where there was none before, with one token in both fields. *)
Theorem GetId_never_overwrites (ci : ClusterId) (env : Env Cluster) :
  ∃ r ci' env',
    run GetId ci env = Some (r, ci', env')
    ∧ (∀ key m, configmaps (world env) !! key = Some m →
                configmaps (world env') !! key = Some m)
    ∧ (configmaps (world env') = configmaps (world env)
       ∨ (configmaps (world env) !! ingress_uid_key = None
          ∧ ∃ tok, configmaps (world env')
                   = <[ingress_uid_key := newConfigMap tok]>
                       (configmaps (world env))
              ∧ r = (tok, None)
              ∧ clusterId ci' = Some tok ∧ providerId ci' = Some tok)).
Proof.
  destruct (getOrInitialize_returns ci env) as (err & ci' & env' & Hinit).
  rewrite (run_GetId _ _ _ _ _ Hinit). do 3 eexists. split; [done |].
  assert (configmaps (world env') = configmaps (world env)
          ∨ (configmaps (world env) !! ingress_uid_key = None
             ∧ ∃ tok, configmaps (world env')
                      = <[ingress_uid_key := newConfigMap tok]>
                          (configmaps (world env))
                 ∧ err = None
                 ∧ ci' = setIds_locked (newConfigMap tok) ci)) as Hcases.
  { revert Hinit.
    unfold getOrInitialize, getConfigMap, makeUID, setIds. cbn.
    destruct (store ci) as [st |] eqn:Hst; cbn; [| intros [= <- <- <-]; auto].
    destruct (clusterId ci) as [cid |]; cbn; [intros [= <- <- <-]; auto |].
    rewrite Hst; cbn.
    destruct (st (cfgMapKey ci)) as [[item ex] gerr]; cbn.
    destruct gerr; cbn; [intros [= <- <- <-]; auto |].
    destruct ex; cbn.
    { destruct item as [| [m |] | dyn]; cbn; intros [= <- <- <-]; auto. }
    destruct (entropy (world env) (drawn (world env))) as [src rerr]; cbn.
    destruct rerr; cbn; [intros [= <- <- <-]; auto |].
    unfold cluster_Create; cbn.
    change (object_key UIDNamespace (Name (newConfigMap ?t)))
      with ingress_uid_key.
    destruct (configmaps (world env) !! ingress_uid_key) eqn:Hk; cbn;
      intros [= <- <- <-]; [auto |].
    right. split; [done |]. eexists. repeat split; reflexivity. }
  split.
  - intros key m Hm. destruct Hcases as [-> | (Hnone & tok & -> & _)];
      [done |].
    rewrite lookup_insert_ne; [done |]. congruence.
  - destruct Hcases as [? | (Hnone & tok & Hcm & -> & ->)]; [by left |].
    right. split; [done |]. exists tok. split; [done |].
    rewrite setIds_locked_clusterId, setIds_locked_providerId.
    unfold GetId_locked.
    rewrite setIds_locked_clusterId, setIds_locked_providerId.
    unfold newConfigMap; simpl.
    rewrite lookup_insert_eq, lookup_insert_ne, lookup_insert_eq by done.
    by rewrite bool_decide_false by (intros Hne; by apply Hne).
Qed.

(** X18: after [AddFunc] has delivered a record with a [uid] to a cache
    that is ready, [clusterId] is that [uid], [providerId] is the record's
    [provider-uid] if it has one and what the cache held before if not,
    and [GetId] answers from the cache, without input or output and
    without error: it returns [providerId] when that is present and
    differs from the [uid], and the [uid] in every other case. *)
Theorem delivered_record_is_served {World : Type} `{!Environment World}
    (ci : ClusterId) (env : Env World) (st : Store) (m : ConfigMap)
    (uid : string) :
  store ci = Some st →
  Namespace m = UIDNamespace → Name m = UIDConfigMapName →
  Data m !! UIDCluster = Some uid →
  ∃ ci',
    run (AddFunc (ObjConfigMap (Some m))) ci env = Some (tt, ci', env)
    ∧ clusterId ci' = Some uid
    ∧ providerId ci'
      = match Data m !! UIDProvider with
        | Some pid => Some pid
        | None => providerId ci
        end
    ∧ (∀ pid, providerId ci' = Some pid → pid ≠ uid →
         run GetId ci' env = Some ((pid, None), ci', env))
    ∧ (providerId ci' = None ∨ providerId ci' = Some uid →
         run GetId ci' env = Some ((uid, None), ci', env)).
Proof.
  intros Hst Hns Hnm Huid.
  assert (run (AddFunc (ObjConfigMap (Some m))) ci env
          = Some (tt, setIds_locked m ci, env)) as Hadd.
  { unfold AddFunc; simpl.
    rewrite !bool_decide_false by (intros Hne; by apply Hne). done. }
  assert (clusterId (setIds_locked m ci) = Some uid) as Hcid.
  { by rewrite setIds_locked_clusterId, Huid. }
  destruct (setIds_locked_store m ci) as [Hst' _].
  assert (run getOrInitialize (setIds_locked m ci) env
          = Some (None, setIds_locked m ci, env)) as Hinit.
  { unfold getOrInitialize. cbn. rewrite Hst', Hst. cbn. by rewrite Hcid. }
  exists (setIds_locked m ci).
  split; [done |]. split; [done |].
  split; [apply setIds_locked_providerId |].
  rewrite (run_GetId _ _ _ _ _ Hinit). unfold GetId_locked. rewrite Hcid.
  split.
  - intros pid -> Hne. by rewrite bool_decide_true.
  - intros [-> | ->]; [done |].
    by rewrite bool_decide_false by (intros Hne; by apply Hne).
Qed.


(** ** The further statements at work *)

Lemma cached_reads_are_local_witness :
  ∃ (id : string) (fed : bool),
    run GetId first_initialized cluster_after_first_create
    = Some ((id, None), first_initialized, cluster_after_first_create)
    ∧ run GetFederationId first_initialized cluster_after_first_create
      = Some ((if fed then "0001020304050607" else "", fed, None),
              first_initialized, cluster_after_first_create)
    ∧ (fed = true ↔ id ≠ "0001020304050607")
    ∧ (fed = true → providerId first_initialized = Some id)
    ∧ (fed = false → id = "0001020304050607").
Proof.
  apply (cached_reads_are_local first_initialized cluster_after_first_create
           empty_store "0001020304050607"); reflexivity.
Defined.

Lemma stored_record_is_adopted_witness :
  let ci := watchingClusterId (store_add (newConfigMap "ab") empty_store) in
  run getOrInitialize ci fresh_cluster
  = Some (None, setIds_locked (newConfigMap "ab") ci,
          mkEnv (world fresh_cluster)
            (trace fresh_cluster ++ [IOGetByKey (cfgMapKey ci)]))
  ∧ ∃ ci', run (setIds (newConfigMap "ab")) ci fresh_cluster
           = Some (tt, ci', fresh_cluster)
      ∧ run GetId ci fresh_cluster
        = Some (GetId_locked ci', ci',
                mkEnv (world fresh_cluster)
                  (trace fresh_cluster ++ [IOGetByKey (cfgMapKey ci)])).
Proof.
  intros ci.
  apply (stored_record_is_adopted ci fresh_cluster
           (store_add (newConfigMap "ab") empty_store) (newConfigMap "ab"));
    reflexivity.
Defined.

Lemma record_without_uid_is_not_repaired_witness :
  let ci := watchingClusterId (store_add record_without_ids empty_store) in
  ∃ ci' env',
    run GetId ci fresh_cluster = Some (("", Some ErrNoClusterId), ci', env')
    ∧ clusterId ci' = None
    ∧ world env' = world fresh_cluster
    ∧ trace env' = (trace fresh_cluster ++ [IOGetByKey (cfgMapKey ci)])%list
    ∧ ∃ env'', run GetId ci' env'
               = Some (("", Some ErrNoClusterId), ci', env'')
        ∧ world env'' = world fresh_cluster.
Proof.
  intros ci.
  apply (record_without_uid_is_not_repaired ci fresh_cluster
           (store_add record_without_ids empty_store) record_without_ids);
    reflexivity.
Defined.

Lemma first_creation_witness :
  let src := (counting_entropy 0).1 in
  ∃ ci' env',
    run GetId fresh_process fresh_cluster
    = Some ((token_of src, None), ci', env')
    ∧ String.length (token_of src) = 16
    ∧ clusterId ci' = Some (token_of src)
    ∧ providerId ci' = Some (token_of src)
    ∧ world env'
      = {| configmaps :=
             <[ingress_uid_key := newConfigMap (token_of src)]> ∅;
           entropy := counting_entropy; drawn := 1 |}
    ∧ run GetFederationId ci' env' = Some (("", false, None), ci', env').
Proof.
  intros src.
  apply (first_creation fresh_process fresh_cluster empty_store ObjNil src
           {| configmaps := ∅; entropy := counting_entropy; drawn := 1 |});
    reflexivity.
Defined.

Lemma GetId_is_stable_witness :
  run GetId first_initialized cluster_after_first_create
  = Some (("0001020304050607", None), first_initialized,
          cluster_after_first_create).
Proof.
  apply (GetId_is_stable fresh_process fresh_cluster). reflexivity.
Defined.

Lemma token_of_inj_witness :
  token_of (counting_entropy 0).1 ≠ token_of (counting_entropy 1).1.
Proof.
  intros Heq. apply token_of_inj in Heq; [| reflexivity | reflexivity].
  discriminate Heq.
Defined.

Lemma selector_is_fixed_witness :
  let base : ListerWatcher unit unit string string :=
    {| lw_List := λ options w, (FieldSelector options, None, w);
       lw_Watch := λ options w, (FieldSelector options, None, w) |} in
  let sow := newSingleObjectListerWatcher base UIDConfigMapName in
  sow_List sow {| FieldSelector := "metadata.name=other"; otherOptions := tt |}
    tt
  = ("metadata.name=ingress-uid", None, tt)
  ∧ sow_Watch sow {| FieldSelector := ""; otherOptions := tt |} tt
    = ("metadata.name=ingress-uid", None, tt).
Proof.
  intros base sow.
  destruct (selector_is_fixed base UIDConfigMapName "other"
              {| FieldSelector := "metadata.name=other"; otherOptions := tt |}
              {| FieldSelector := ""; otherOptions := tt |} eq_refl)
    as (Hlist & _ & _ & Hwatch & _).
  fold sow in Hlist, Hwatch. split.
  - rewrite Hlist. reflexivity.
  - rewrite <- Hwatch.
    destruct (selector_is_fixed base UIDConfigMapName "other"
                {| FieldSelector := "metadata.name=other";
                   otherOptions := tt |}
                {| FieldSelector := ""; otherOptions := tt |} eq_refl)
      as (_ & Hw & _).
    fold sow in Hw. rewrite Hw. reflexivity.
Defined.

(** A record with two different identities. *)
Lemma delivered_record_is_served_witness :
  let m := {| Namespace := UIDNamespace; Name := UIDConfigMapName;
              Data := <[UIDCluster := "A"]> (<[UIDProvider := "B"]> ∅) |} in
  ∃ ci',
    run (AddFunc (ObjConfigMap (Some m))) fresh_process fresh_cluster
    = Some (tt, ci', fresh_cluster)
    ∧ clusterId ci' = Some "A"
    ∧ providerId ci' = Some "B"
    ∧ run GetId ci' fresh_cluster = Some (("B", None), ci', fresh_cluster).
Proof.
  intros m.
  destruct (delivered_record_is_served fresh_process fresh_cluster
              empty_store m "A" eq_refl eq_refl eq_refl eq_refl)
    as (ci' & Hadd & Hcid & Hpid & Hdiff & _).
  exists ci'. split; [exact Hadd |]. split; [exact Hcid |].
  split; [exact Hpid |]. apply Hdiff; [exact Hpid | discriminate].
Defined.
